(** * enterprise-cloud-migration: the migration pipeline and its validators

    A shallow embedding of [src/migration_pipeline.py] and
    [src/data_validation.py], followed by the properties of the two
    programs that the specification states and by further properties of
    the code: its error and edge behaviour, the invariants of the watermark
    log, and how runs compose.

    Conventions of the embedding:
    - Python [str] values are Rocq strings whose characters are read as the
      code points U+0000..U+00FF.
    - Exceptions are values of [exn]; a call that may raise returns a
      [result].
    - The built-in [hash] is the one of CPython 3.11 on a 64-bit platform,
      with the hash secret of the process as an explicit argument.
    - The validators receive references into a store of frames, so that a
      frame they change is seen changed by the caller.
    - The pipeline runs against a [world] that answers for the source
      database, the storage backend, the clock and the file system; its
      methods thread the [state] they can change. *)

From Stdlib Require Import ZArith Ascii String List Bool Lia.
From stdpp Require Import base tactics option list strings gmap pretty.

Local Open Scope Z_scope.

(* stdpp blocks the unfolding of string concatenation; the proofs below
   compute with it. *)
#[local] Arguments String.append !s1 s2 : simpl nomatch.

(** ** Exceptions and fallible calls *)

Inductive exn : Type :=
| FileNotFoundError
| ValueError
| KeyError
| AttributeError
| TypeError
| ExternalError (msg : string).

Inductive result (A : Type) : Type :=
| Ok (a : A)
| Raise (e : exn).
Arguments Ok {A} a.
Arguments Raise {A} e.

Definition rbind {A B} (r : result A) (k : A → result B) : result B :=
  match r with
  | Ok a => k a
  | Raise e => Raise e
  end.

Notation "'let!' x ':=' r 'in' k" := (rbind r (λ x, k))
  (at level 10, x name, r at level 100, k at level 200).

(** ** Python strings *)
Module Py.

Definition code (c : ascii) : Z := Z.of_N (N_of_ascii c).

(** [str.isspace] on U+0000..U+00FF, the characters [str.strip] removes. *)
Definition is_space (c : ascii) : bool :=
  let n := code c in
  ((9 <=? n) && (n <=? 13)) || ((28 <=? n) && (n <=? 32))
  || (n =? 133) || (n =? 160).

Fixpoint lstrip (s : string) : string :=
  match s with
  | EmptyString => EmptyString
  | String c s' => if is_space c then lstrip s' else s
  end.

Fixpoint rstrip (s : string) : string :=
  match s with
  | EmptyString => EmptyString
  | String c s' =>
      match rstrip s' with
      | EmptyString => if is_space c then EmptyString else String c EmptyString
      | r => String c r
      end
  end.

(** [s.strip()] *)
Definition strip (s : string) : string := rstrip (lstrip s).

(** [s.split(sep)] for a one-character separator: never an empty list. *)
Fixpoint split (sep : ascii) (s : string) : list string :=
  match s with
  | EmptyString => [EmptyString]
  | String c s' =>
      if Ascii.eqb c sep then EmptyString :: split sep s'
      else match split sep s' with
           | h :: t => String c h :: t
           | [] => [String c EmptyString]
           end
  end.

Definition LF : ascii := ascii_of_nat 10.
Definition CR : ascii := ascii_of_nat 13.
Definition newline : string := String LF EmptyString.

(** Iterating a file opened in text mode: the lines of its content, each
    with its terminator; universal newlines turn CR and CR LF into LF. *)
Fixpoint readlines (s : string) : list string :=
  match s with
  | EmptyString => []
  | String c s' =>
      if Ascii.eqb c LF then newline :: readlines s'
      else if Ascii.eqb c CR then
        match s' with
        | String c' s'' =>
            if Ascii.eqb c' LF then newline :: readlines s''
            else newline :: readlines s'
        | EmptyString => [newline]
        end
      else match readlines s' with
           | l :: ls => String c l :: ls
           | [] => [String c EmptyString]
           end
  end.

(** [str.lower] on U+0000..U+00FF. *)
Definition lower_char (c : ascii) : ascii :=
  let n := code c in
  if ((65 <=? n) && (n <=? 90)) || ((192 <=? n) && (n <=? 214))
     || ((216 <=? n) && (n <=? 222))
  then ascii_of_N (Z.to_N (n + 32)) else c.

Fixpoint lower (s : string) : string :=
  match s with
  | EmptyString => EmptyString
  | String c s' => String (lower_char c) (lower s')
  end.

(** The class [\w] of the [re] module on U+0000..U+00FF. *)
Definition is_word (c : ascii) : bool :=
  let n := code c in
  ((48 <=? n) && (n <=? 57)) || ((65 <=? n) && (n <=? 90)) || (n =? 95)
  || ((97 <=? n) && (n <=? 122)) || (n =? 170) || (n =? 178) || (n =? 179)
  || (n =? 181) || (n =? 185) || (n =? 186) || ((188 <=? n) && (n <=? 190))
  || ((192 <=? n) && (n <=? 214)) || ((216 <=? n) && (n <=? 246))
  || ((248 <=? n) && (n <=? 255)).

(** [s.replace(' ', '_')] *)
Fixpoint replace_space (s : string) : string :=
  match s with
  | EmptyString => EmptyString
  | String c s' =>
      String (if Ascii.eqb c " " then "_"%char else c) (replace_space s')
  end.

(** [re.sub(r'[^\w]', '', s)] *)
Fixpoint keep_word (s : string) : string :=
  match s with
  | EmptyString => EmptyString
  | String c s' => if is_word c then String c (keep_word s') else keep_word s'
  end.

(** *** Decimal digits *)

Definition digit_char (d : Z) : ascii := ascii_of_N (Z.to_N (48 + d)).

Definition char_digit (c : ascii) : option Z :=
  let n := code c in
  if (48 <=? n) && (n <=? 57) then Some (n - 48) else None.

(** [n] in [k] decimal digits, zero padded (the [%0kd] of the formats). *)
Fixpoint pad (k : nat) (n : Z) : string :=
  match k with
  | O => EmptyString
  | S k' => pad k' (n / 10) +:+ String (digit_char (n mod 10)) EmptyString
  end.

(** Reads exactly [k] decimal digits from the front of [s]. *)
Fixpoint parse_digits (k : nat) (acc : Z) (s : string) : option (Z * string) :=
  match k with
  | O => Some (acc, s)
  | S k' =>
      match s with
      | String c s' =>
          match char_digit c with
          | Some d => parse_digits k' (10 * acc + d) s'
          | None => None
          end
      | EmptyString => None
      end
  end.

(** ** The built-in [hash] (CPython 3.11, 64-bit)

    A process draws its hash secret when it starts (or derives it from
    PYTHONHASHSEED); [str] and [bytes] are hashed with SipHash-1-3 keyed by
    that secret, integers by reduction modulo 2^61 - 1, tuples by the
    xxHash-style combination of their items' hashes, and [None] by its
    address. *)

Record process : Type := mkprocess {
  k0 : Z;          (* first word of the hash secret *)
  k1 : Z;          (* second word of the hash secret *)
  none_hash : Z    (* hash(None), derived from the address of None *)
}.

Definition wrap64 (x : Z) : Z := x mod 2 ^ 64.
Definition rotl64 (x b : Z) : Z :=
  wrap64 (Z.lor (Z.shiftl x b) (Z.shiftr x (64 - b))).
(** A 64-bit word read as a signed [Py_hash_t]. *)
Definition signed64 (x : Z) : Z := if 2 ^ 63 <=? x then x - 2 ^ 64 else x.

Definition sipstate : Type := (Z * Z * Z * Z)%type.

Definition sipround (v : sipstate) : sipstate :=
  let '(v0, v1, v2, v3) := v in
  let v0 := wrap64 (v0 + v1) in
  let v1 := Z.lxor (rotl64 v1 13) v0 in
  let v0 := rotl64 v0 32 in
  let v2 := wrap64 (v2 + v3) in
  let v3 := Z.lxor (rotl64 v3 16) v2 in
  let v0 := wrap64 (v0 + v3) in
  let v3 := Z.lxor (rotl64 v3 21) v0 in
  let v2 := wrap64 (v2 + v1) in
  let v1 := Z.lxor (rotl64 v1 17) v2 in
  let v2 := rotl64 v2 32 in
  (v0, v1, v2, v3).

(** Little-endian value of a run of bytes. *)
Definition le_bytes (l : list Z) : Z := fold_right (λ b acc, b + 256 * acc) 0 l.

Definition sip_absorb (v : sipstate) (m : Z) : sipstate :=
  let '(v0, v1, v2, v3) := v in
  let '(v0, v1, v2, v3) := sipround (v0, v1, v2, Z.lxor v3 m) in
  (Z.lxor v0 m, v1, v2, v3).

(** Absorbs the full 8-byte blocks; returns the state and the tail. *)
Fixpoint sip_blocks (v : sipstate) (data : list Z) : sipstate * list Z :=
  match data with
  | b0 :: b1 :: b2 :: b3 :: b4 :: b5 :: b6 :: b7 :: rest =>
      sip_blocks (sip_absorb v (le_bytes [b0; b1; b2; b3; b4; b5; b6; b7])) rest
  | _ => (v, data)
  end.

Definition siphash13 (key0 key1 : Z) (data : list Z) : Z :=
  let v := (Z.lxor key0 0x736f6d6570736575, Z.lxor key1 0x646f72616e646f6d,
            Z.lxor key0 0x6c7967656e657261, Z.lxor key1 0x7465646279746573) in
  let '(v, tail) := sip_blocks v data in
  let b := Z.lor (wrap64 (Z.shiftl (Z.of_nat (length data)) 56)) (le_bytes tail) in
  let '(v0, v1, v2, v3) := sip_absorb v b in
  let '(v0, v1, v2, v3) :=
    sipround (sipround (sipround (v0, v1, Z.lxor v2 0xff, v3))) in
  Z.lxor (Z.lxor v0 v1) (Z.lxor v2 v3).

(** A hash is never -1: that value is reserved for errors. *)
Definition fix_hash (h : Z) : Z := if h =? -1 then -2 else h.

(** [hash(b)] for bytes [b], also the hash of a [str] of code points
    below 256, whose buffer holds one byte per character. *)
Definition hash_bytes (p : process) (data : list Z) : Z :=
  match data with
  | [] => 0
  | _ => fix_hash (signed64 (siphash13 (k0 p) (k1 p) data))
  end.

Fixpoint str_bytes (s : string) : list Z :=
  match s with
  | EmptyString => []
  | String c s' => code c :: str_bytes s'
  end.

Definition hash_str (p : process) (s : string) : Z := hash_bytes p (str_bytes s).

(** [hash(n)] for an integer [n]. *)
Definition hash_int (n : Z) : Z :=
  fix_hash (Z.sgn n * (Z.abs n mod (2 ^ 61 - 1))).

Definition XXPRIME_1 : Z := 11400714785074694791.
Definition XXPRIME_2 : Z := 14029467366897019727.
Definition XXPRIME_5 : Z := 2870177450012600261.

(** [hash(t)] for a tuple [t], from the hashes of its items. *)
Definition hash_tuple (item_hashes : list Z) : Z :=
  let acc :=
    fold_left (λ acc h,
      wrap64 (rotl64 (wrap64 (acc + wrap64 h * XXPRIME_2)) 31 * XXPRIME_1))
      item_hashes XXPRIME_5 in
  let acc :=
    wrap64 (acc + Z.lxor (Z.of_nat (length item_hashes))
                         (Z.lxor XXPRIME_5 3527539)) in
  if acc =? 2 ^ 64 - 1 then 1546275796 else signed64 acc.

(** ** [datetime.datetime], naive *)

Record datetime : Type := mkdatetime {
  year : Z; month : Z; day : Z;
  hour : Z; minute : Z; second : Z; microsecond : Z
}.

Definition is_leap (y : Z) : bool :=
  (y mod 4 =? 0) && (negb (y mod 100 =? 0) || (y mod 400 =? 0)).

Definition days_in_month (y m : Z) : Z :=
  if m =? 2 then (if is_leap y then 29 else 28)
  else if (m =? 4) || (m =? 6) || (m =? 9) || (m =? 11) then 30 else 31.

(** The range checks of the constructor. *)
Definition valid_datetime (d : datetime) : bool :=
  (1 <=? year d) && (year d <=? 9999)
  && (1 <=? month d) && (month d <=? 12)
  && (1 <=? day d) && (day d <=? days_in_month (year d) (month d))
  && (0 <=? hour d) && (hour d <? 24)
  && (0 <=? minute d) && (minute d <? 60)
  && (0 <=? second d) && (second d <? 60)
  && (0 <=? microsecond d) && (microsecond d <? 1000000).

(** [datetime(y, m, d, ...)]: ValueError outside the ranges. *)
Definition make_datetime (d : datetime) : result datetime :=
  if valid_datetime d then Ok d else Raise ValueError.

(** [d.isoformat()] *)
Definition isoformat (d : datetime) : string :=
  pad 4 (year d) +:+ "-" +:+ pad 2 (month d) +:+ "-" +:+ pad 2 (day d)
  +:+ "T" +:+ pad 2 (hour d) +:+ ":" +:+ pad 2 (minute d)
  +:+ ":" +:+ pad 2 (second d)
  +:+ (if microsecond d =? 0 then "" else "." +:+ pad 6 (microsecond d)).

(** [d.strftime('%Y%m%d%H%M%S')] and [d.strftime('%Y/%m/%d')] *)
Definition strftime_compact (d : datetime) : string :=
  pad 4 (year d) +:+ pad 2 (month d) +:+ pad 2 (day d)
  +:+ pad 2 (hour d) +:+ pad 2 (minute d) +:+ pad 2 (second d).

Definition strftime_path (d : datetime) : string :=
  pad 4 (year d) +:+ "/" +:+ pad 2 (month d) +:+ "/" +:+ pad 2 (day d).

(** The time part [HH[:MM[:SS[.fff[fff]]]]] of an ISO string. *)
Definition parse_time (s : string) : option (Z * Z * Z * Z) :=
  match parse_digits 2 0 s with
  | None => None
  | Some (h, EmptyString) => Some (h, 0, 0, 0)
  | Some (h, String c1 s1) =>
      if negb (Ascii.eqb c1 ":") then None else
      match parse_digits 2 0 s1 with
      | None => None
      | Some (mi, EmptyString) => Some (h, mi, 0, 0)
      | Some (mi, String c2 s2) =>
          if negb (Ascii.eqb c2 ":") then None else
          match parse_digits 2 0 s2 with
          | None => None
          | Some (se, EmptyString) => Some (h, mi, se, 0)
          | Some (se, String c3 s3) =>
              if negb (Ascii.eqb c3 ".") then None else
              match parse_digits 6 0 s3 with
              | Some (us, EmptyString) => Some (h, mi, se, us)
              | Some (_, String _ _) => None
              | None =>
                  match parse_digits 3 0 s3 with
                  | Some (ms, EmptyString) => Some (h, mi, se, 1000 * ms)
                  | _ => None
                  end
              end
          end
      end
  end.

(** [datetime.fromisoformat(s)] on the spellings every interpreter since
    3.7 reads alike: [YYYY-MM-DD], optionally followed by one separator
    character and [HH[:MM[:SS[.fff[fff]]]]]; on these the function returns
    what the interpreters return.  The model has naive datetimes only.
    Other spellings are outside it: a UTC offset (read by every
    interpreter, as an aware datetime), and the basic and week formats and
    the fractions of 1, 2, 4 or 5 digits that CPython 3.11 reads.  On those
    the function answers ValueError, which is not what the interpreter
    does; the theorems below that state the value of a read apply it to
    the texts [isoformat] writes, to such a text cut after its date, hour,
    minute or second, and to ['1900-01-01'] only. *)
Definition fromisoformat (s : string) : result datetime :=
  match parse_digits 4 0 s with
  | Some (y, String c1 s1) =>
      if negb (Ascii.eqb c1 "-") then Raise ValueError else
      match parse_digits 2 0 s1 with
      | Some (m, String c2 s2) =>
          if negb (Ascii.eqb c2 "-") then Raise ValueError else
          match parse_digits 2 0 s2 with
          | Some (d, EmptyString) => make_datetime (mkdatetime y m d 0 0 0 0)
          | Some (d, String _ t) =>
              match parse_time t with
              | Some (h, mi, se, us) =>
                  make_datetime (mkdatetime y m d h mi se us)
              | None => Raise ValueError
              end
          | None => Raise ValueError
          end
      | _ => Raise ValueError
      end
  | _ => Raise ValueError
  end.

(** Comparison of datetimes: field by field, most significant first. *)
Definition fields (d : datetime) : list Z :=
  [year d; month d; day d; hour d; minute d; second d; microsecond d].

Fixpoint lex_compare (a b : list Z) : comparison :=
  match a, b with
  | [], [] => Eq
  | [], _ :: _ => Lt
  | _ :: _, [] => Gt
  | x :: a', y :: b' =>
      match Z.compare x y with
      | Eq => lex_compare a' b'
      | c => c
      end
  end.

Definition dt_compare (a b : datetime) : comparison :=
  lex_compare (fields a) (fields b).

Definition dt_ltb (a b : datetime) : bool :=
  match dt_compare a b with Lt => true | _ => false end.
Definition dt_leb (a b : datetime) : bool :=
  match dt_compare a b with Gt => false | _ => true end.
Definition dt_max (a b : datetime) : datetime := if dt_ltb a b then b else a.

End Py.

Import Py.

(** * [data_validation.py]: class MigrationValidator

    The validators report through their return value and the logger; the
    log records, which nothing reads back, are left out. *)
Module MigrationValidator.

(** The Python objects a cell holds: integers, strings and None.
    Floating-point cells are outside the model: a NULL of a numeric column
    is a NaN, whose hash is the identity of the object, so that the
    fingerprint of a row with such a cell is not a function of the row's
    values.  Every statement below about fingerprints is a statement about
    frames without floating-point cells. *)
Inductive value : Type :=
| VInt (z : Z)
| VStr (s : string)
| VNone.

#[global] Instance value_eq_dec : EqDecision value.
Proof. solve_decision. Defined.

(** A [pd.DataFrame]: its column labels and its rows in index order. *)
Record DataFrame : Type := mkframe {
  columns : list string;
  rows : list (list value)
}.

(** Frames the model covers: unique column labels, every row as wide as
    the header, and no rows without columns. *)
Definition wf_frame (df : DataFrame) : bool :=
  bool_decide (NoDup (columns df))
  && forallb (λ r, Nat.eqb (length r) (length (columns df))) (rows df)
  && (match columns df with [] => Nat.eqb (length (rows df)) 0 | _ => true end).

(** DataFrames are mutable objects: they live in a store and the
    validators receive references, so that two arguments may be one object. *)
Abbreviation loc := nat.
Abbreviation heap := (gmap nat DataFrame).

Definition empty_frame : DataFrame := mkframe [] [].
Definition deref (h : heap) (l : loc) : DataFrame := default empty_frame (h !! l).

(** [hash(x)] of a cell. *)
Definition py_hash (p : process) (v : value) : Z :=
  match v with
  | VInt z => hash_int z
  | VStr s => hash_str p s
  | VNone => none_hash p
  end.

(** [str(x)], what [astype(str)] puts in place of a cell. *)
Definition str_of (v : value) : string :=
  match v with
  | VInt z => pretty z
  | VStr s => s
  | VNone => "None"
  end.

(** [hash(tuple(row.values))], the row fingerprint. *)
Definition row_hash (p : process) (row : list value) : Z :=
  hash_tuple (map (py_hash p) row).

Fixpoint index_of (name : string) (cols : list string) : option nat :=
  match cols with
  | [] => None
  | c :: cols' =>
      if bool_decide (c = name) then Some O else S <$> index_of name cols'
  end.

(** [df[name]] for a single label, in a frame with unique labels
    ([wf_frame]); with a repeated label pandas selects every column so
    labelled, which the model does not cover. *)
Definition get_column (df : DataFrame) (name : string) : result (list value) :=
  match index_of name (columns df) with
  | Some i => Ok (map (λ r, default VNone (r !! i)) (rows df))
  | None => Raise KeyError
  end.

(** [df[name] = cells], in a frame with unique labels ([wf_frame]):
    overwrites the column in place when the label exists, appends it
    otherwise. *)
Definition set_column (df : DataFrame) (name : string) (cells : list value)
  : DataFrame :=
  match index_of name (columns df) with
  | Some i => mkframe (columns df) (zip_with (λ r c, <[i:=c]> r) (rows df) cells)
  | None => mkframe (columns df ++ [name])%list
                    (zip_with (λ r c, (r ++ [c])%list) (rows df) cells)
  end.

(** [df['checksum'] = df.apply(lambda row: hash(tuple(row.values)), axis=1)] *)
Definition add_checksum (p : process) (df : DataFrame) : DataFrame :=
  set_column df "checksum" (map (λ r, VInt (row_hash p r)) (rows df)).

(** [df[key_column].astype(str) + '_' + df['checksum'].astype(str)] *)
Definition row_keys (df : DataFrame) (key_column : string) : result (list string) :=
  let! ks := get_column df key_column in
  let! cs := get_column df "checksum" in
  Ok (zip_with (λ k c, str_of k +:+ "_" +:+ str_of c) ks cs).

(** One half of [validate_checksum]: the checksum column is written into
    the frame behind [l], then the set of row keys is built. *)
Definition checksum_set (p : process) (h : heap) (l : loc) (key_column : string)
  : result (gset string) * heap :=
  let df := add_checksum p (deref h l) in
  let h' := <[l := df]> h in
  (let! keys := row_keys df key_column in Ok (list_to_set keys), h').

Definition symmetric_difference (a b : gset string) : gset string :=
  (a ∖ b) ∪ (b ∖ a).

(** The body of the [try] block: the difference of the two key sets. *)
Definition checksum_diff (p : process) (h : heap) (source_df target_df : loc)
    (key_column : string) : result (gset string) * heap :=
  match checksum_set p h source_df key_column with
  | (Raise e, h1) => (Raise e, h1)
  | (Ok source_set, h1) =>
      match checksum_set p h1 target_df key_column with
      | (Raise e, h2) => (Raise e, h2)
      | (Ok target_set, h2) => (Ok (symmetric_difference source_set target_set), h2)
      end
  end.

(** [validate_checksum]: any exception of the body is caught and turned
    into [False]. *)
Definition validate_checksum (p : process) (h : heap) (source_df target_df : loc)
    (key_column : string) : result bool * heap :=
  match checksum_diff p h source_df target_df key_column with
  | (Ok diff, h') => (Ok (Nat.eqb (size diff) 0), h')
  | (Raise _, h') => (Ok false, h')
  end.

(** [validate_schema]: the two dicts are only read. *)
Definition validate_schema (h : heap) (source_schema target_schema : gmap string string)
  : result bool * heap :=
  let source_cols : gset string := dom source_schema in
  let target_cols : gset string := dom target_schema in
  if bool_decide (source_cols ≠ target_cols) then (Ok false, h) else (Ok true, h).

Definition is_null (v : value) : bool :=
  match v with VNone => true | _ => false end.

(** [df[critical_columns].isnull().sum()]: KeyError when a label is missing. *)
Fixpoint null_counts (df : DataFrame) (critical_columns : list string)
  : result (list (string * nat)) :=
  match critical_columns with
  | [] => Ok []
  | c :: cs =>
      let! cells := get_column df c in
      let! rest := null_counts df cs in
      Ok ((c, length (filter (λ v, is_null v = true) cells)) :: rest)
  end.

(** [validate_nulls] *)
Definition validate_nulls (h : heap) (df : loc) (critical_columns : list string)
  : result bool * heap :=
  match null_counts (deref h df) critical_columns with
  | Raise e => (Raise e, h)
  | Ok null_check =>
      let issues := filter (λ cn, (0 < snd cn)%nat) null_check in
      if (0 <? length issues)%nat then (Ok false, h) else (Ok true, h)
  end.

(** [validate_row_counts] *)
Definition validate_row_counts (source_count target_count : Z) : bool :=
  source_count =? target_count.

End MigrationValidator.

(** * [migration_pipeline.py]: class CloudMigrationPipeline *)
Module CloudMigrationPipeline.

(** A scalar taken out of a frame: what [Series.max()] returns and what an
    object column holds. *)
Inductive scalar : Type :=
| SInt (z : Z)
| SStr (s : string)
| SNone
| STime (d : datetime)     (* a Timestamp with whole microseconds *)
| SNaT.

(** A column with its dtype: int64, datetime64 (with NaT as [None]) or
    object.  Floating-point columns are outside the model. *)
Inductive column : Type :=
| ColInt (cells : list Z)
| ColTime (cells : list (option datetime))
| ColObj (cells : list scalar).

(** A [pd.DataFrame]: the length of its index and its labelled columns. *)
Record DataFrame : Type := mkframe {
  nrows : nat;
  cols : list (string * column)
}.

Definition columns (df : DataFrame) : list string := map fst (cols df).

Inductive event : Type :=
| LogStarting (table : string)
| LogConnected (server database : string)
| LogConnectFailed
| LogIncremental (table : string) (watermark : datetime)
| LogFull (table : string)
| LogExtracted (n : nat) (table : string)
| LogNoNewData (table : string)
| LogTransformed (n m : nat)
| LogLoaded (n : nat) (path : string)
| LogLoadFailed
| LogWatermarkUpdated (table : string) (new_watermark : scalar)
| LogWatermarkFailed
| LogCompleted (table : string) (n : nat)
| LogMigrationFailed (table : string)
| ConnClosed.                       (* [conn.close()], not a log record *)

(** What the program can change: the watermark file ([None] while it does
    not exist), the files written to the lake, and the log together with
    the calls on the connection. *)
Record state : Type := mkstate {
  watermark_file : option string;
  lake : list (string * DataFrame);
  trace : list event
}.

(** The collaborators of one run: the source database, the storage backend,
    the clock, and the library calls whose result depends on the pandas
    version. *)
Record world : Type := mkworld {
  connect : string → string → string → string → result unit;   (* pyodbc.connect *)
  read_sql : string → option datetime → result DataFrame;
    (* pd.read_sql for a table: with the parameter of [LastModified > ?],
       or without for a full load *)
  to_parquet : string → DataFrame → result unit;   (* makedirs and df.to_parquet *)
  utcnow_ingestion : datetime;
  utcnow_batch : datetime;
  now_load : datetime;
  watermark_writable : bool;   (* whether open(watermark_file, 'a+') succeeds *)
  to_datetime : list scalar → option (list (option datetime));
    (* pd.to_datetime(col, errors='ignore'): the parsed column, or [None]
       when the column is left as it is *)
  object_max : list scalar → result scalar   (* Series.max() of an object column *)
}.

(** Statements of a method: state in, result and state out. *)
Definition M (A : Type) : Type := state → result A * state.

Definition ret {A} (a : A) : M A := λ st, (Ok a, st).
Definition raise {A} (e : exn) : M A := λ st, (Raise e, st).
Definition bind {A B} (m : M A) (k : A → M B) : M B :=
  λ st, match m st with
        | (Ok a, st') => k a st'
        | (Raise e, st') => (Raise e, st')
        end.
Definition lift {A} (r : result A) : M A := λ st, (r, st).
(** [try: m except Exception as e: handler e] *)
Definition try_except {A} (m : M A) (handler : exn → M A) : M A :=
  λ st, match m st with
        | (Ok a, st') => (Ok a, st')
        | (Raise e, st') => handler e st'
        end.
(** [try: m finally: cleanup] *)
Definition try_finally {A} (m : M A) (cleanup : M unit) : M A :=
  λ st, match m st with
        | (r, st') =>
            match cleanup st' with
            | (Ok _, st'') => (r, st'')
            | (Raise e, st'') => (Raise e, st'')
            end
        end.

Notation "'do' x '<-' m ';' k" := (bind m (λ x, k))
  (at level 10, x name, m at level 100, k at level 200).
Notation "m ';;' k" := (bind m (λ _, k))
  (at level 100, k at level 200, right associativity).

Definition log (e : event) : M unit :=
  λ st, (Ok tt, mkstate (watermark_file st) (lake st) (trace st ++ [e])%list).

(** [dict(pairs)]: every item must have exactly two elements; a later key
    replaces an earlier one. *)
Fixpoint dict_of (m : gmap string string) (items : list (list string))
  : result (gmap string string) :=
  match items with
  | [] => Ok m
  | [k; v] :: rest => dict_of (<[k := v]> m) rest
  | _ :: _ => Raise ValueError
  end.

Definition sentinel : datetime := mkdatetime 1900 1 1 0 0 0 0.

(** Reading the watermark out of the content of the file. *)
Definition read_watermark (file : option string) (table_name : string)
  : result datetime :=
  match file with
  | None => Ok sentinel                       (* except FileNotFoundError *)
  | Some content =>
      let! watermarks :=
        dict_of ∅ (map (λ line, split "=" (strip line)) (readlines content)) in
      fromisoformat (default "1900-01-01" (watermarks !! table_name))
  end.

(** [get_watermark] *)
Definition get_watermark (table_name : string) : M datetime :=
  λ st, (read_watermark (watermark_file st) table_name, st).

(** [new_watermark.isoformat()]: an AttributeError on anything that is not
    a timestamp. *)
Definition scalar_isoformat (v : scalar) : result string :=
  match v with
  | STime d => Ok (isoformat d)
  | SNaT => Ok "NaT"
  | _ => Raise AttributeError
  end.

(** The file after [open(watermark_file, 'a+')] and the write in
    [update_watermark]: opening creates the file, the record is appended
    when [isoformat] returns. *)
Definition append_watermark (file : option string) (table_name : string)
    (new_watermark : scalar) : result unit * option string :=
  let opened := default "" file in
  match scalar_isoformat new_watermark with
  | Ok iso => (Ok tt, Some (opened +:+ table_name +:+ "=" +:+ iso +:+ newline))
  | Raise e => (Raise e, Some opened)
  end.

(** [update_watermark]: every exception is logged and dropped.
    [writable] tells whether the file can be opened for appending. *)
Definition update_watermark (writable : bool) (table_name : string)
    (new_watermark : scalar) : M unit :=
  try_except
    (λ st,
      if writable then
        let '(r, file) := append_watermark (watermark_file st) table_name new_watermark in
        match r with
        | Ok _ =>
            log (LogWatermarkUpdated table_name new_watermark)
                (mkstate file (lake st) (trace st))
        | Raise e => (Raise e, mkstate file (lake st) (trace st))
        end
      else (Raise (ExternalError "open"), st))
    (λ _, log LogWatermarkFailed).

(** [connect_onprem_sql] *)
Definition connect_onprem_sql (w : world) (server database username password : string)
  : M unit :=
  try_except
    (lift (connect w server database username password) ;;
     log (LogConnected server database))
    (λ e, log LogConnectFailed ;; raise e).

(** [extract_data] *)
Definition extract_data (w : world) (table_name : string) (incremental : bool)
  : M DataFrame :=
  do df <- (if incremental then
              do watermark <- get_watermark table_name;
              log (LogIncremental table_name watermark) ;;
              lift (read_sql w table_name (Some watermark))
            else
              log (LogFull table_name) ;;
              lift (read_sql w table_name None));
  log (LogExtracted (nrows df) table_name) ;;
  ret df.

(** The three rewrites of a column label in [transform_for_synapse]. *)
Definition normalize (name : string) : string :=
  keep_word (replace_space (lower name)).

Definition count_label (name : string) (labels : list string) : nat :=
  length (filter (λ c, c = name) labels).

Definition coerce (w : world) (c : column) : column :=
  match c with
  | ColObj cells =>
      match to_datetime w cells with
      | Some parsed => ColTime parsed
      | None => c
      end
  | _ => c
  end.

Definition map_column (name : string) (f : column → column) (df : DataFrame)
  : DataFrame :=
  mkframe (nrows df)
          (map (λ nc, if bool_decide (fst nc = name) then (fst nc, f (snd nc)) else nc)
               (cols df)).

(** The loop over [df.columns]: [df[col].dtype] needs a Series, and a label
    that occurs twice selects a DataFrame, which has no such attribute. *)
Fixpoint coerce_columns (w : world) (labels : list string) (df : DataFrame)
  : result DataFrame :=
  match labels with
  | [] => Ok df
  | col :: rest =>
      if (1 <? count_label col (columns df))%nat then
        Raise (if bool_decide (col = "dtype") then ValueError else AttributeError)
      else coerce_columns w rest (map_column col (coerce w) df)
  end.

(** [df[name] = scalar]: a constant column, in place of the one so
    labelled or appended. *)
Definition set_column (df : DataFrame) (name : string) (c : column) : DataFrame :=
  if bool_decide (name ∈ columns df) then map_column name (λ _, c) df
  else mkframe (nrows df) (cols df ++ [(name, c)])%list.

(** The dataframe work of [transform_for_synapse]: labels, dtypes, lineage
    columns. *)
Definition transform_frame (w : world) (df : DataFrame) : result DataFrame :=
  let df := mkframe (nrows df) (map (λ nc, (normalize (fst nc), snd nc)) (cols df)) in
  let! df := coerce_columns w (columns df) df in
  let df := set_column df "_ingestion_timestamp"
              (ColTime (replicate (nrows df) (Some (utcnow_ingestion w)))) in
  let df := set_column df "_source_system"
              (ColObj (replicate (nrows df) (SStr "legacy_sql_server"))) in
  let df := set_column df "_migration_batch_id"
              (ColObj (replicate (nrows df) (SStr (strftime_compact (utcnow_batch w))))) in
  Ok df.

(** [transform_for_synapse]: the frame is changed in place and returned, so
    the caller's [df] and [df_transformed] are the same object. *)
Definition transform_for_synapse (w : world) (df : DataFrame) : M DataFrame :=
  do df <- lift (transform_frame w df);
  log (LogTransformed (nrows df) (length (cols df))) ;;
  ret df.

(** The [file_path] of [load_to_adls]:
    [{layer}/{table_name}/{now:%Y/%m/%d}/{table_name}.parquet]. *)
Definition parquet_path (w : world) (layer table_name : string) : string :=
  layer +:+ "/" +:+ table_name +:+ "/" +:+ strftime_path (now_load w)
  +:+ "/" +:+ table_name +:+ ".parquet".

(** [load_to_adls] *)
Definition load_to_adls (w : world) (df : DataFrame) (table_name layer : string)
  : M string :=
  try_except
    (let file_path := parquet_path w layer table_name in
     lift (to_parquet w file_path df) ;;
     (λ st, (Ok tt, mkstate (watermark_file st)
                            (lake st ++ [(file_path, df)])%list (trace st))) ;;
     log (LogLoaded (nrows df) file_path) ;;
     ret file_path)
    (λ e, log LogLoadFailed ;; raise e).

(** One step of the maximum over a datetime column: NaT is skipped. *)
Definition max_step (acc c : option datetime) : option datetime :=
  match acc, c with
  | Some a, Some d => Some (dt_max a d)
  | None, _ => c
  | _, None => acc
  end.

Definition max_time (cells : list (option datetime)) : option datetime :=
  fold_left max_step cells None.

Definition max_int (cells : list Z) : option Z :=
  fold_left (λ acc z,
    match acc with Some a => Some (Z.max a z) | None => Some z end) cells None.

(** [df[name]], then [.max()]: NaT is skipped in a datetime column. *)
Definition series_max (w : world) (c : column) : result scalar :=
  match c with
  | ColTime cells => Ok (match max_time cells with Some d => STime d | None => SNaT end)
  | ColInt cells => Ok (match max_int cells with Some z => SInt z | None => SNone end)
  | ColObj cells => object_max w cells
  end.

(** [df[name]] once the loop of [transform_for_synapse] has passed, which
    leaves no label twice: the column so labelled. *)
Definition get_column (df : DataFrame) (name : string) : result column :=
  match find (λ nc, bool_decide (fst nc = name)) (cols df) with
  | Some nc => Ok (snd nc)
  | None => Raise KeyError
  end.

Definition lookup_config (source_config : gmap string string) (key : string)
  : M string :=
  match source_config !! key with
  | Some v => ret v
  | None => raise KeyError
  end.

(** [migrate_table] *)
Definition migrate_table (w : world) (source_config : gmap string string)
    (table_name : string) (incremental : bool) : M unit :=
  log (LogStarting table_name) ;;
  λ st0,
  let body : M unit :=
    do df <- extract_data w table_name incremental;
    if Nat.eqb (nrows df) 0 then
      log (LogNoNewData table_name) ;; ret tt
    else
      do df <- transform_for_synapse w df;
      do file_path <- load_to_adls w df table_name "bronze";
      (if incremental && bool_decide ("lastmodified" ∈ columns df) then
         do c <- lift (get_column df "lastmodified");
         do new_watermark <- lift (series_max w c);
         update_watermark (watermark_writable w) table_name new_watermark
       else ret tt) ;;
      log (LogCompleted table_name (nrows df))
  in
  let connecting : M unit :=
    do server <- lookup_config source_config "server";
    do database <- lookup_config source_config "database";
    do username <- lookup_config source_config "username";
    do password <- lookup_config source_config "password";
    connect_onprem_sql w server database username password
  in
  (* [conn] is set by the first statement of the [try]: the [finally]
     closes it exactly when that statement returned. *)
  match connecting st0 with
  | (Raise e, st1) =>
      (log (LogMigrationFailed table_name) ;; raise e) st1
  | (Ok _, st1) =>
      try_finally
        (try_except body
           (λ e, log (LogMigrationFailed table_name) ;; raise e))
        (log ConnClosed) st1
  end.

End CloudMigrationPipeline.

(** * [migration_pipeline.py]: the script under [if __name__ == "__main__"] *)
Module MigrationScript.
Import CloudMigrationPipeline.

Definition source_config : gmap string string :=
  list_to_map [("server", "onprem-sql-server.company.local");
               ("database", "LegacyDataWarehouse");
               ("username", "migration_user");
               ("password", "secure_password")].

Definition dimensions : list string := ["dim_customer"; "dim_product"; "dim_date"].
Definition facts : list string := ["fact_sales"; "fact_inventory"].

(** [for table in tables: body(table)] *)
Fixpoint for_each (tables : list string) (body : string → M unit) : M unit :=
  match tables with
  | [] => ret tt
  | table :: rest => body table ;; for_each rest body
  end.

(** The script: the dimension tables in full, then the fact tables
    incrementally, then the closing log record.  [env table] are the
    collaborators as they stand while [table] is migrated; the last
    component of the outcome holds the records the script itself logs. *)
Definition main (env : string → world) (st : state)
  : result unit * state * list string :=
  match (for_each dimensions
           (λ table, migrate_table (env table) source_config table false) ;;
         for_each facts
           (λ table, migrate_table (env table) source_config table true)) st with
  | (Ok _, st') => (Ok tt, st', ["Migration batch completed successfully!"])
  | (Raise e, st') => (Raise e, st', [])
  end.

End MigrationScript.

(** * Definitions used to state the properties *)

(** ** The watermark log and the runs of the pipeline *)

Section PipelineTerms.
Import CloudMigrationPipeline.

Fixpoint all_chars (P : ascii → bool) (s : string) : bool :=
  match s with
  | EmptyString => true
  | String c s' => P c && all_chars P s'
  end.

(** A character that neither separates key from value nor ends a line. *)
Definition plain_char (c : ascii) : bool :=
  negb (Ascii.eqb c "=") && negb (Ascii.eqb c LF) && negb (Ascii.eqb c CR).

(** Table names the watermark log can hold: no ['='], no line break, no
    leading whitespace. *)
Definition wf_table (t : string) : bool :=
  all_chars plain_char t
  && match t with String c _ => negb (is_space c) | EmptyString => true end.

(** The characters of [isoformat]'s output. *)
Definition iso_char (c : ascii) : bool :=
  plain_char c && negb (is_space c).

(** The log that a list of completed writes leaves in the file. *)
Definition record (r : string * datetime) : string :=
  fst r +:+ "=" +:+ isoformat (snd r) +:+ newline.

Fixpoint render (rs : list (string * datetime)) : string :=
  match rs with
  | [] => ""
  | r :: rs' => record r +:+ render rs'
  end.

(** The timestamp of the last record for [table], if any. *)
Fixpoint last_for (table : string) (rs : list (string * datetime)) : option datetime :=
  match rs with
  | [] => None
  | (t, d) :: rs' =>
      match last_for table rs' with
      | Some d' => Some d'
      | None => if bool_decide (t = table) then Some d else None
      end
  end.

Definition wf_record (r : string * datetime) : bool :=
  wf_table (fst r) && valid_datetime (snd r).

(** The dict entry a complete record contributes. *)
Definition insert_record (m : gmap string string) (r : string * datetime)
  : gmap string string := <[fst r := isoformat (snd r)]> m.

(** The places at which the text of a timestamp can stop and still be read
    by every interpreter: after the date, the hour, the minute, the second. *)
Inductive cut : Type := AfterDate | AfterHour | AfterMinute | AfterSecond.

Definition cut_length (c : cut) : nat :=
  match c with
  | AfterDate => 10
  | AfterHour => 13
  | AfterMinute => 16
  | AfterSecond => 19
  end.

(** The timestamp with everything after the cut set to zero. *)
Definition truncate_to (c : cut) (d : datetime) : datetime :=
  match c with
  | AfterDate => mkdatetime (year d) (month d) (day d) 0 0 0 0
  | AfterHour => mkdatetime (year d) (month d) (day d) (hour d) 0 0 0
  | AfterMinute => mkdatetime (year d) (month d) (day d) (hour d) (minute d) 0 0
  | AfterSecond =>
      mkdatetime (year d) (month d) (day d) (hour d) (minute d) (second d) 0
  end.

(** What [line.strip().split('=')] makes of a line. *)
Definition parse_line (line : string) : list string := split "=" (strip line).

(** The file holds exactly the records [rs]. *)
Definition log_state (file : option string) (rs : list (string * datetime)) : Prop :=
  file = Some (render rs) ∨ (file = None ∧ rs = []).

(** A call [update_watermark(table, timestamp)], with whether the file
    could be opened. *)
Definition set_call : Type := bool * string * datetime.

Definition run_set (st : state) (c : set_call) : state :=
  snd (update_watermark c.1.1 c.1.2 (STime c.2) st).

Definition run_sets (st : state) (cs : list set_call) : state :=
  fold_left run_set cs st.

(** The records of the calls that wrote. *)
Definition successful (cs : list set_call) : list (string * datetime) :=
  (λ c : set_call, (c.1.2, c.2)) <$> filter (λ c : set_call, c.1.1 = true) cs.

Definition wf_set_call (c : set_call) : bool :=
  wf_table c.1.2 && valid_datetime c.2.

Definition fresh_state : state := mkstate None [] [].

(** A store whose watermark file has the given content. *)
Definition with_file (content : string) : state :=
  mkstate (Some content) [] [].

(** The path [load_to_adls] writes a table of the bronze layer to. *)
Definition bronze_path (w : world) (table : string) : string :=
  parquet_path w "bronze" table.

(** What the Extractor obtains from the source in either mode. *)
Definition extraction (w : world) (file : option string)
    (table : string) (incremental : bool) : result DataFrame :=
  if incremental then
    let! watermark := read_watermark file table in
    read_sql w table (Some watermark)
  else read_sql w table None.

(** The configuration has the four keys and the source accepts the
    connection. *)
Definition connects (w : world) (cfg : gmap string string) : bool :=
  match cfg !! "server", cfg !! "database", cfg !! "username", cfg !! "password" with
  | Some s, Some d, Some u, Some p =>
      match connect w s d u p with Ok _ => true | Raise _ => false end
  | _, _, _, _ => false
  end.

Definition connected_event (cfg : gmap string string) : event :=
  LogConnected (default "" (cfg !! "server")) (default "" (cfg !! "database")).

(** The log record of the extraction mode. *)
Definition mode_event (file : option string) (table : string) (incremental : bool)
  : event :=
  if incremental then
    match read_watermark file table with
    | Ok watermark => LogIncremental table watermark
    | Raise _ => LogFull table
    end
  else LogFull table.

(** The source honours the predicate [LastModified > watermark]: in the
    batch it returns for that watermark, as the Transformer leaves it, a
    [lastmodified] column of timestamps has one cell per row and every cell
    is a valid timestamp strictly above the watermark.  (An integer column
    makes [update_watermark] drop its AttributeError; an object column is
    not a column of timestamps.) *)
Definition extracts_above (w : world) (table : string) (watermark : datetime)
  : bool :=
  match read_sql w table (Some watermark) with
  | Raise _ => true
  | Ok df =>
      match transform_frame w df with
      | Raise _ => true
      | Ok df' =>
          match get_column df' "lastmodified" with
          | Raise _ => true
          | Ok (ColInt _) => true
          | Ok (ColObj _) => false
          | Ok (ColTime cells) =>
              Nat.eqb (length cells) (nrows df')
              && forallb (λ c, match c with
                               | Some d => dt_ltb watermark d && valid_datetime d
                               | None => false
                               end) cells
          end
      end
  end.

(** One call of [migrate_table]: the collaborators, the configuration, the
    table and the mode. *)
Definition run : Type := world * gmap string string * string * bool.

Definition exec_run (st : state) (r : run) : state :=
  snd (migrate_table r.1.1.1 r.1.1.2 r.1.2 r.2 st).

Definition exec_runs (st : state) (rs : list run) : state :=
  fold_left exec_run rs st.

Definition honest_run (r : run) : Prop :=
  wf_table r.1.2 = true ∧ ∀ watermark, extracts_above r.1.1.1 r.1.2 watermark = true.

(** ** Collaborators for the examples *)

Definition demo_config : gmap string string :=
  list_to_map [("server", "onprem-sql-server.company.local");
               ("database", "LegacyDataWarehouse");
               ("username", "migration_user");
               ("password", "secure_password")].

Definition demo_now : datetime := mkdatetime 2024 6 30 12 0 0 0.

(** A world in which the connection, the storage and the watermark file
    work, and the source answers with [batch]. *)
Definition demo_world (batch : option datetime → result DataFrame)
  : world :=
  mkworld (λ _ _ _ _, Ok tt) (λ _ watermark, batch watermark)
    (λ _ _, Ok tt) demo_now demo_now demo_now true
    (λ _, None) (λ _, Raise TypeError).

(** A source table with the columns [Id] and [LastModified], queried as
    [extract_data] does: all rows, or the rows whose [LastModified] is
    above the parameter. *)
Definition select_rows (rows : list (Z * datetime)) (watermark : option datetime)
  : result DataFrame :=
  let kept := List.filter (λ r, match watermark with
                                | Some wm => dt_ltb wm (snd r)
                                | None => true
                                end) rows in
  Ok (mkframe (length kept)
        [("Id", ColInt (map fst kept));
         ("LastModified", ColTime (map (λ r, Some (snd r)) kept))]).

End PipelineTerms.

(** ** Frames and row keys of the validators *)

Section ValidatorTerms.
Import MigrationValidator.

(** Two processes: one started with PYTHONHASHSEED=0, which switches the
    randomization off (a zero secret), and one started with
    PYTHONHASHSEED=1. *)
Definition process_seed0 : process := mkprocess 0 0 613068.
Definition process_seed1 : process :=
  mkprocess 0xaed66ce184be2329 0xebe9bbf1f1499052 613068.

Definition is_int (v : value) : bool :=
  match v with VInt _ => true | _ => false end.

(** Every row is as wide as the header. *)
Definition widths_ok (df : DataFrame) : Prop :=
  Forall (λ r, length r = length (columns df)) (rows df).



(** What [add_checksum] does to one row: the fingerprint goes into the
    cell of the checksum column, at index [o], or is appended. *)
Definition add_cell (p : process) (o : option nat) (r : list value)
  : list value :=
  match o with
  | Some j => <[j := VInt (row_hash p r)]> r
  | None => r ++ [VInt (row_hash p r)]
  end.


(** [str(row[key_column])], the business key of a row as text. *)
Definition key_text (cols : list string) (key_column : string)
    (r : list value) : string :=
  match index_of key_column cols with
  | Some i => str_of (default VNone (r !! i))
  | None => ""
  end.

(** The RowKey of a row: business key, separator, fingerprint. *)
Definition row_key (p : process) (cols : list string) (key_column : string)
    (r : list value) : string :=
  key_text cols key_column r +:+ "_" +:+ pretty (row_hash p r).





End ValidatorTerms.

(** ** Logs of arbitrary values, and the runs of the script *)

Section ScriptTerms.
Import CloudMigrationPipeline MigrationScript.

(** A line [name=value] of the watermark file, with its terminator. *)
Definition line_of (l : string * string) : string :=
  fst l +:+ "=" +:+ snd l +:+ newline.

Fixpoint render_lines (ls : list (string * string)) : string :=
  match ls with
  | [] => ""
  | l :: ls' => line_of l +:+ render_lines ls'
  end.

(** A line that reads back as it was written: a name the log can hold, and
    a value without ['='], line break or whitespace. *)
Definition wf_line (l : string * string) : bool :=
  wf_table (fst l) && all_chars iso_char (snd l).

(** The file holds exactly the lines [ls]. *)
Definition lines_state (file : option string) (ls : list (string * string)) : Prop :=
  file = Some (render_lines ls) ∨ (file = None ∧ ls = []).

(** The dict entry a line contributes. *)
Definition insert_line (m : gmap string string) (l : string * string)
  : gmap string string := <[fst l := snd l]> m.


(** The keys [migrate_table] reads from the configuration. *)
Definition config_keys : list string :=
  ["server"; "database"; "username"; "password"].

(** The calls of [migrate_table] the script makes, in order. *)
Definition script_runs (env : string → world) : list run :=
  (map (λ table, (env table, source_config, table, false)) dimensions
   ++ map (λ table, (env table, source_config, table, true)) facts)%list.

(** One run as a statement, and a sequence of runs in which an exception
    ends the sequence. *)
Definition run_call (r : run) : M unit := migrate_table r.1.1.1 r.1.1.2 r.1.2 r.2.

Fixpoint run_all (rs : list run) : M unit :=
  match rs with
  | [] => ret tt
  | r :: rest => run_call r ;; run_all rest
  end.

End ScriptTerms.

(** * Strings *)

Section Strings.

Lemma append_assoc (a b c : string) : (a +:+ b) +:+ c = a +:+ (b +:+ c).
Proof. induction a as [|x a IH]; simpl; [done | by rewrite IH]. Qed.

Lemma append_nil_r (a : string) : a +:+ "" = a.
Proof. induction a as [|x a IH]; simpl; [done | by rewrite IH]. Qed.

Lemma length_append (a b : string) :
  String.length (a +:+ b) = (String.length a + String.length b)%nat.
Proof. induction a as [|x a IH]; simpl; [done | by rewrite IH]. Qed.

Lemma substring_prefix (a b : string) : substring 0 (String.length a) (a +:+ b) = a.
Proof.
  induction a as [|x a IH]; simpl; [by destruct b | by rewrite IH].
Qed.

Lemma all_chars_app P a b :
  all_chars P (a +:+ b) = all_chars P a && all_chars P b.
Proof.
  induction a as [|x a IH]; simpl; [done|].
  by rewrite IH, andb_assoc.
Qed.

Lemma all_chars_impl (P Q : ascii → bool) s :
  (∀ c, P c = true → Q c = true) → all_chars P s = true → all_chars Q s = true.
Proof.
  intros HPQ. induction s as [|x s IH]; simpl; [done|].
  intros [Hx Hs]%andb_true_iff. apply andb_true_iff. auto.
Qed.

Lemma split_no_sep sep s :
  all_chars (λ c, negb (Ascii.eqb c sep)) s = true → split sep s = [s].
Proof.
  induction s as [|x s IH]; simpl; [done|].
  intros [Hx Hs]%andb_true_iff. apply negb_true_iff in Hx.
  by rewrite Hx, IH.
Qed.

Lemma split_app_sep sep a b :
  all_chars (λ c, negb (Ascii.eqb c sep)) a = true →
  split sep (a +:+ String sep b) = a :: split sep b.
Proof.
  induction a as [|x a IH]; simpl.
  - by rewrite Ascii.eqb_refl.
  - intros [Hx Hs]%andb_true_iff. apply negb_true_iff in Hx.
    by rewrite Hx, IH.
Qed.

Lemma readlines_app_line a rest :
  all_chars (λ c, negb (Ascii.eqb c LF) && negb (Ascii.eqb c CR)) a = true →
  readlines (a +:+ String LF rest) = (a +:+ newline) :: readlines rest.
Proof.
  induction a as [|x a IH]; simpl; [done|].
  intros [[H1 H2]%andb_true_iff Hs]%andb_true_iff.
  apply negb_true_iff in H1, H2.
  by rewrite H1, H2, IH.
Qed.

Lemma rstrip_nonspace b :
  all_chars (λ c, negb (is_space c)) b = true → rstrip b = b.
Proof.
  induction b as [|x b IH]; simpl; [done|].
  intros [Hx Hb]%andb_true_iff. apply negb_true_iff in Hx.
  rewrite IH by done. destruct b; [by rewrite Hx | done].
Qed.

Lemma rstrip_app_nonspace a b :
  all_chars (λ c, negb (is_space c)) b = true → b ≠ "" →
  rstrip (a +:+ b) = a +:+ b.
Proof.
  intros Hb Hne. induction a as [|x a IH]; simpl.
  - by apply rstrip_nonspace.
  - rewrite IH. destruct (a +:+ b) eqn:E; [|done].
    destruct a, b; simpl in E; congruence.
Qed.

Lemma rstrip_app_space a c :
  is_space c = true → rstrip (a +:+ String c "") = rstrip a.
Proof.
  intros Hc. induction a as [|x a IH]; simpl.
  - by rewrite Hc.
  - by rewrite IH.
Qed.

Lemma lstrip_nonspace c s : is_space c = false → lstrip (String c s) = String c s.
Proof. intros H. simpl. by rewrite H. Qed.

End Strings.

(** * Printing and reading timestamps *)

Section Timestamps.

Lemma code_digit_char d : 0 ≤ d ≤ 9 → code (digit_char d) = 48 + d.
Proof.
  intros Hd. unfold code, digit_char.
  rewrite N_ascii_embedding by lia. lia.
Qed.

Lemma char_digit_digit_char d : 0 ≤ d ≤ 9 → char_digit (digit_char d) = Some d.
Proof.
  intros Hd. unfold char_digit. rewrite code_digit_char by done.
  replace ((48 <=? 48 + d) && (48 + d <=? 57)) with true
    by (symmetry; apply andb_true_iff; split; apply Z.leb_le; lia).
  f_equal. lia.
Qed.

Lemma digit_char_cases d :
  0 ≤ d ≤ 9 →
  digit_char d ∈ ["0"; "1"; "2"; "3"; "4"; "5"; "6"; "7"; "8"; "9"]%char.
Proof.
  intros Hd.
  assert (d = 0 ∨ d = 1 ∨ d = 2 ∨ d = 3 ∨ d = 4 ∨ d = 5 ∨ d = 6 ∨ d = 7
          ∨ d = 8 ∨ d = 9) as Hcases by lia.
  clear Hd.
  repeat (destruct Hcases as [-> | Hcases]; [set_solver|]).
  subst. set_solver.
Qed.

Lemma iso_char_digit d : 0 ≤ d ≤ 9 → iso_char (digit_char d) = true.
Proof.
  intros Hd. pose proof (digit_char_cases d Hd) as Hin.
  repeat (apply elem_of_cons in Hin as [-> | Hin]; [done|]).
  by apply elem_of_nil in Hin.
Qed.

Lemma iso_char_pad k n : all_chars iso_char (pad k n) = true.
Proof.
  revert n. induction k as [|k IH]; intros n; simpl; [done|].
  rewrite all_chars_app, IH. simpl.
  rewrite iso_char_digit; [done|]. pose proof (Z.mod_pos_bound n 10). lia.
Qed.

Lemma pad_nonempty k n : pad (S k) n ≠ "".
Proof. simpl. destruct (pad k (n / 10)); simpl; congruence. Qed.

Lemma length_pad k : ∀ n, String.length (pad k n) = k.
Proof.
  induction k as [|k IH]; intros n; simpl; [done|].
  rewrite length_append, IH. simpl. lia.
Qed.

Lemma iso_char_isoformat d : all_chars iso_char (isoformat d) = true.
Proof.
  unfold isoformat.
  repeat (rewrite all_chars_app; apply andb_true_iff; split);
    try apply iso_char_pad; try done.
  destruct (microsecond d =? 0); [done|].
  rewrite all_chars_app. apply andb_true_iff; split; [done | apply iso_char_pad].
Qed.

Lemma isoformat_nonempty d : isoformat d ≠ "".
Proof.
  unfold isoformat. pose proof (pad_nonempty 3 (year d)) as Hne.
  destruct (pad 4 (year d)); [done | simpl; congruence].
Qed.

Lemma parse_digits_snoc k : ∀ acc s,
  parse_digits (S k) acc s =
  match parse_digits k acc s with
  | Some (a, String c r) =>
      match char_digit c with Some x => Some (10 * a + x, r) | None => None end
  | _ => None
  end.
Proof.
  induction k as [|k IH]; intros acc s.
  - simpl. destruct s as [|c r]; [done|]. by destruct (char_digit c).
  - change (parse_digits (S (S k)) acc s) with
      (match s with
       | String c s' =>
           match char_digit c with
           | Some x => parse_digits (S k) (10 * acc + x) s'
           | None => None
           end
       | EmptyString => None
       end).
    destruct s as [|c s']; [done|]. simpl.
    destruct (char_digit c) as [x|]; [|done].
    rewrite <- IH. done.
Qed.

Lemma parse_digits_pad k : ∀ n acc rest,
  0 ≤ n < 10 ^ Z.of_nat k →
  parse_digits k acc (pad k n +:+ rest) = Some (acc * 10 ^ Z.of_nat k + n, rest).
Proof.
  induction k as [|k IH]; intros n acc rest Hn.
  - simpl in *. f_equal. f_equal. lia.
  - rewrite parse_digits_snoc. simpl pad. rewrite append_assoc.
    rewrite Nat2Z.inj_succ, Z.pow_succ_r in * by lia.
    rewrite IH by (split; [apply Z.div_pos; lia | apply Z.div_lt_upper_bound; lia]).
    simpl. rewrite char_digit_digit_char by (pose proof (Z.mod_pos_bound n 10); lia).
    f_equal. f_equal. pose proof (Z.div_mod n 10). lia.
Qed.

Lemma parse_digits_pad_end k n acc :
  0 ≤ n < 10 ^ Z.of_nat k →
  parse_digits k acc (pad k n) = Some (acc * 10 ^ Z.of_nat k + n, "").
Proof.
  intros Hn. rewrite <- (append_nil_r (pad k n)). by apply parse_digits_pad.
Qed.

Lemma valid_datetime_bounds d :
  valid_datetime d = true →
  0 ≤ year d < 10 ^ 4 ∧ 0 ≤ month d < 10 ^ 2 ∧ 0 ≤ day d < 10 ^ 2
  ∧ 0 ≤ hour d < 10 ^ 2 ∧ 0 ≤ minute d < 10 ^ 2 ∧ 0 ≤ second d < 10 ^ 2
  ∧ 0 ≤ microsecond d < 10 ^ 6.
Proof.
  unfold valid_datetime. rewrite !andb_true_iff.
  rewrite !Z.leb_le, !Z.ltb_lt.
  assert (days_in_month (year d) (month d) ≤ 31).
  { unfold days_in_month. repeat case_match; lia. }
  lia.
Qed.

Local Opaque pad parse_digits.

(** Reading back what [isoformat] printed gives the datetime printed. *)
Lemma fromisoformat_isoformat d :
  valid_datetime d = true → fromisoformat (isoformat d) = Ok d.
Proof.
  intros Hv. pose proof (valid_datetime_bounds d Hv) as (Hy & Hm & Hd & Hh & Hmi & Hs & Hus).
  unfold fromisoformat, isoformat.
  rewrite (parse_digits_pad 4) by done. simpl.
  rewrite (parse_digits_pad 2) by done. simpl.
  rewrite (parse_digits_pad 2) by done. simpl.
  unfold parse_time.
  rewrite (parse_digits_pad 2) by done. simpl.
  rewrite (parse_digits_pad 2) by done. simpl.
  rewrite (parse_digits_pad 2) by done. simpl.
  destruct (microsecond d =? 0) eqn:Hz.
  - simpl. apply Z.eqb_eq in Hz. unfold make_datetime.
    match goal with
    | |- context [valid_datetime ?x] =>
        replace x with d by (destruct d; simpl in *; f_equal; lia)
    end.
    by rewrite Hv.
  - simpl. rewrite (parse_digits_pad_end 6) by done. simpl.
    unfold make_datetime.
    match goal with
    | |- context [valid_datetime ?x] =>
        replace x with d by (destruct d; simpl in *; f_equal; lia)
    end.
    by rewrite Hv.
Qed.

(** The text of a timestamp up to a cut. *)
Lemma substring_cut c d :
  substring 0 (cut_length c) (isoformat d)
  = pad 4 (year d) +:+ "-" +:+ pad 2 (month d) +:+ "-" +:+ pad 2 (day d)
    +:+ match c with
        | AfterDate => ""
        | AfterHour => "T" +:+ pad 2 (hour d)
        | AfterMinute => "T" +:+ pad 2 (hour d) +:+ ":" +:+ pad 2 (minute d)
        | AfterSecond =>
            "T" +:+ pad 2 (hour d) +:+ ":" +:+ pad 2 (minute d)
            +:+ ":" +:+ pad 2 (second d)
        end.
Proof.
  set (tail := if microsecond d =? 0 then "" else "." +:+ pad 6 (microsecond d)).
  assert (∀ a b n, isoformat d = a +:+ b → String.length a = n →
            substring 0 n (isoformat d) = a) as Hcut.
  { intros a b n -> <-. apply substring_prefix. }
  destruct c; simpl cut_length.
  - apply (Hcut _ ("T" +:+ pad 2 (hour d) +:+ ":" +:+ pad 2 (minute d)
                   +:+ ":" +:+ pad 2 (second d) +:+ tail)).
    + unfold isoformat. fold tail. by rewrite !append_assoc, ?append_nil_r.
    + by rewrite !length_append, !length_pad.
  - apply (Hcut _ (":" +:+ pad 2 (minute d) +:+ ":" +:+ pad 2 (second d) +:+ tail)).
    + unfold isoformat. fold tail. by rewrite !append_assoc.
    + by rewrite !length_append, !length_pad.
  - apply (Hcut _ (":" +:+ pad 2 (second d) +:+ tail)).
    + unfold isoformat. fold tail. by rewrite !append_assoc.
    + by rewrite !length_append, !length_pad.
  - apply (Hcut _ tail).
    + unfold isoformat. fold tail. by rewrite !append_assoc.
    + by rewrite !length_append, !length_pad.
Qed.

Lemma iso_char_cut c d :
  all_chars iso_char (substring 0 (cut_length c) (isoformat d)) = true.
Proof.
  rewrite substring_cut.
  destruct c;
    repeat (rewrite all_chars_app; apply andb_true_iff; split);
    try apply iso_char_pad; done.
Qed.

Lemma valid_truncate_to c d :
  valid_datetime d = true → valid_datetime (truncate_to c d) = true.
Proof.
  unfold valid_datetime. rewrite !andb_true_iff, !Z.leb_le, !Z.ltb_lt.
  intros Hv.
  destruct c; cbn [truncate_to year month day hour minute second microsecond]; lia.
Qed.

(** Reading the text of a timestamp up to a cut gives the timestamp with
    the rest set to zero. *)
Lemma fromisoformat_cut c d :
  valid_datetime d = true →
  fromisoformat (substring 0 (cut_length c) (isoformat d)) = Ok (truncate_to c d).
Proof.
  intros Hv.
  pose proof (valid_datetime_bounds d Hv) as (Hy & Hm & Hd & Hh & Hmi & Hs & Hus).
  pose proof (valid_truncate_to c d Hv) as Hvc.
  rewrite substring_cut. unfold fromisoformat.
  rewrite (parse_digits_pad 4) by done. simpl.
  rewrite (parse_digits_pad 2) by done. simpl.
  destruct c; simpl.
  - rewrite append_nil_r, (parse_digits_pad_end 2) by done. simpl.
    unfold make_datetime. simpl in Hvc.
    match goal with
    | |- context [valid_datetime ?x] =>
        replace x with (mkdatetime (year d) (month d) (day d) 0 0 0 0)
          by (f_equal; lia)
    end.
    by rewrite Hvc.
  - rewrite (parse_digits_pad 2) by done. simpl. unfold parse_time.
    rewrite (parse_digits_pad_end 2) by done. simpl.
    unfold make_datetime. simpl in Hvc.
    match goal with
    | |- context [valid_datetime ?x] =>
        replace x with (mkdatetime (year d) (month d) (day d) (hour d) 0 0 0)
          by (f_equal; lia)
    end.
    by rewrite Hvc.
  - rewrite (parse_digits_pad 2) by done. simpl. unfold parse_time.
    rewrite (parse_digits_pad 2) by done. simpl.
    rewrite (parse_digits_pad_end 2) by done. simpl.
    unfold make_datetime. simpl in Hvc.
    match goal with
    | |- context [valid_datetime ?x] =>
        replace x with (mkdatetime (year d) (month d) (day d) (hour d) (minute d) 0 0)
          by (f_equal; lia)
    end.
    by rewrite Hvc.
  - rewrite (parse_digits_pad 2) by done. simpl. unfold parse_time.
    rewrite (parse_digits_pad 2) by done. simpl.
    rewrite (parse_digits_pad 2) by done. simpl.
    rewrite (parse_digits_pad_end 2) by done. simpl.
    unfold make_datetime. simpl in Hvc.
    match goal with
    | |- context [valid_datetime ?x] =>
        replace x with (mkdatetime (year d) (month d) (day d) (hour d) (minute d)
                          (second d) 0)
          by (f_equal; lia)
    end.
    by rewrite Hvc.
Qed.

Local Transparent pad parse_digits.

End Timestamps.

(** * The watermark log *)

Section WatermarkLog.
Import CloudMigrationPipeline.

Lemma render_app rs1 rs2 : render (rs1 ++ rs2)%list = render rs1 +:+ render rs2.
Proof.
  induction rs1 as [|r rs1 IH]; simpl; [done|].
  by rewrite IH, append_assoc.
Qed.

Lemma plain_char_iso c : iso_char c = true → plain_char c = true.
Proof. unfold iso_char. by intros [? _]%andb_true_iff. Qed.

Lemma wf_table_plain t : wf_table t = true → all_chars plain_char t = true.
Proof. unfold wf_table. by intros [? _]%andb_true_iff. Qed.

Lemma plain_no_eq s :
  all_chars plain_char s = true →
  all_chars (λ c, negb (Ascii.eqb c "=")) s = true.
Proof.
  apply all_chars_impl. unfold plain_char.
  by intros c [[? _]%andb_true_iff _]%andb_true_iff.
Qed.

Lemma plain_no_break s :
  all_chars plain_char s = true →
  all_chars (λ c, negb (Ascii.eqb c LF) && negb (Ascii.eqb c CR)) s = true.
Proof.
  apply all_chars_impl. unfold plain_char.
  intros c [[_ ?]%andb_true_iff ?]%andb_true_iff. by apply andb_true_iff.
Qed.

(** A line [table=text] whose two halves are clean is read as that pair. *)
Lemma parse_line_pair t v :
  wf_table t = true → all_chars iso_char v = true →
  parse_line (t +:+ "=" +:+ v +:+ newline) = [t; v].
Proof.
  intros Ht Hv. unfold parse_line, strip.
  assert (lstrip (t +:+ "=" +:+ v +:+ newline) = t +:+ "=" +:+ v +:+ newline) as ->.
  { unfold wf_table in Ht. apply andb_true_iff in Ht as [_ Ht].
    destruct t as [|c t]; [done|]. apply negb_true_iff in Ht.
    simpl. by rewrite Ht. }
  assert (rstrip (t +:+ "=" +:+ v +:+ newline) = t +:+ "=" +:+ v) as ->.
  { replace (t +:+ "=" +:+ v +:+ newline) with ((t +:+ "=" +:+ v) +:+ newline)
      by (by rewrite !append_assoc).
    unfold newline. rewrite rstrip_app_space by done.
    replace (t +:+ "=" +:+ v) with (t +:+ ("=" +:+ v)) by done.
    apply rstrip_app_nonspace; [|done].
    simpl. revert Hv. apply all_chars_impl. unfold iso_char.
    by intros c [_ ?]%andb_true_iff. }
  change (t +:+ "=" +:+ v) with (t +:+ String "=" v).
  rewrite split_app_sep by (by apply plain_no_eq, wf_table_plain).
  rewrite split_no_sep; [done|].
  apply plain_no_eq. revert Hv. apply all_chars_impl, plain_char_iso.
Qed.

Lemma readlines_line t v rest :
  wf_table t = true → all_chars iso_char v = true →
  readlines ((t +:+ "=" +:+ v +:+ newline) +:+ rest)
  = (t +:+ "=" +:+ v +:+ newline) :: readlines rest.
Proof.
  intros Ht Hv.
  replace ((t +:+ "=" +:+ v +:+ newline) +:+ rest)
    with ((t +:+ "=" +:+ v) +:+ String LF rest)
    by (by rewrite !append_assoc).
  rewrite readlines_app_line; [by rewrite !append_assoc|].
  rewrite !all_chars_app.
  rewrite (plain_no_break t) by (by apply wf_table_plain). simpl.
  apply plain_no_break. revert Hv. apply all_chars_impl, plain_char_iso.
Qed.

Lemma lines_render rs tail :
  forallb wf_record rs = true →
  map parse_line (readlines (render rs +:+ tail))
  = (map (λ r, [fst r; isoformat (snd r)]) rs ++ map parse_line (readlines tail))%list.
Proof.
  induction rs as [|[t d] rs IH]; cbn [render forallb map app]; [done|].
  intros [[Ht Hd]%andb_true_iff Hrs]%andb_true_iff. cbn [fst snd] in *.
  rewrite (append_assoc (record (t, d))).
  unfold record. cbn [fst snd].
  rewrite readlines_line by auto using iso_char_isoformat.
  cbn [map]. rewrite parse_line_pair by auto using iso_char_isoformat.
  by rewrite IH.
Qed.

Lemma dict_of_records rs : ∀ m rest,
  dict_of m (map (λ r, [fst r; isoformat (snd r)]) rs ++ rest)%list
  = dict_of (fold_left insert_record rs m) rest.
Proof.
  induction rs as [|r rs IH]; intros m rest; simpl; [done|].
  by rewrite IH.
Qed.

Lemma lookup_records rs : ∀ (m : gmap string string) t,
  fold_left insert_record rs m !! t
  = match last_for t rs with
    | Some d => Some (isoformat d)
    | None => m !! t
    end.
Proof.
  induction rs as [|[t' d'] rs IH]; intros m t; simpl; [done|].
  rewrite IH. destruct (last_for t rs); [done|].
  unfold insert_record. simpl. case_bool_decide.
  - subst. by rewrite lookup_insert_eq.
  - by rewrite lookup_insert_ne.
Qed.

Lemma last_for_valid t rs d :
  forallb wf_record rs = true → last_for t rs = Some d → valid_datetime d = true.
Proof.
  induction rs as [|[t' d'] rs IH]; simpl; [done|].
  intros [[_ Hd]%andb_true_iff Hrs]%andb_true_iff.
  destruct (last_for t rs) as [d''|] eqn:E.
  - intros [= <-]. by apply IH.
  - case_bool_decide; [|done]. by intros [= <-].
Qed.

(** Reading a log of complete records: the last record of the table wins,
    and the sentinel stands in when there is none. *)
Lemma read_render rs t :
  forallb wf_record rs = true →
  read_watermark (Some (render rs)) t = Ok (default sentinel (last_for t rs)).
Proof.
  intros Hrs. unfold read_watermark.
  change (λ line, split "=" (strip line)) with parse_line.
  rewrite <- (append_nil_r (render rs)), lines_render by done.
  cbn [readlines map]. rewrite dict_of_records. cbn [dict_of rbind].
  rewrite lookup_records, lookup_empty.
  destruct (last_for t rs) as [d|] eqn:E; simpl.
  - apply fromisoformat_isoformat. by eapply last_for_valid.
  - reflexivity.
Qed.

Lemma read_log_state file rs t :
  log_state file rs → forallb wf_record rs = true →
  read_watermark file t = Ok (default sentinel (last_for t rs)).
Proof.
  intros [-> | [-> ->]] Hrs; [by apply read_render | done].
Qed.

Lemma append_log_state file rs t d :
  log_state file rs →
  append_watermark file t (STime d) = (Ok tt, Some (render (rs ++ [(t, d)])%list)).
Proof.
  intros Hlog. unfold append_watermark. simpl. f_equal. f_equal.
  rewrite render_app. simpl. rewrite append_nil_r.
  destruct Hlog as [-> | [-> ->]]; simpl; unfold record; simpl;
    by rewrite ?append_assoc.
Qed.

End WatermarkLog.

(** * WatermarkStore: [get_watermark] after a sequence of [update_watermark] *)

Section WatermarkStore.
Import CloudMigrationPipeline.

Lemma run_set_file st (c : set_call) :
  watermark_file (run_set st c)
  = if c.1.1 then snd (append_watermark (watermark_file st) c.1.2 (STime c.2))
    else watermark_file st.
Proof.
  destruct c as [[b t] d]. unfold run_set, update_watermark, try_except. simpl.
  destruct b; reflexivity.
Qed.

Lemma run_sets_log cs : ∀ st rs,
  log_state (watermark_file st) rs →
  log_state (watermark_file (run_sets st cs)) (rs ++ successful cs).
Proof.
  induction cs as [|[[b t] d] cs IH]; intros st rs Hlog.
  - simpl. unfold successful. simpl. by rewrite app_nil_r.
  - simpl. unfold successful. rewrite filter_cons. simpl.
    destruct b.
    + rewrite decide_True by done. rewrite fmap_cons. simpl.
      rewrite cons_middle, app_assoc. apply IH.
      rewrite run_set_file. cbn [fst snd].
      erewrite append_log_state by done. by left.
    + rewrite decide_False by done. apply IH.
      by rewrite run_set_file.
Qed.

Lemma successful_wf cs :
  forallb wf_set_call cs = true → forallb wf_record (successful cs) = true.
Proof.
  induction cs as [|[[b t] d] cs IH]; [done|].
  simpl. intros [Hc Hcs]%andb_true_iff.
  unfold successful. rewrite filter_cons. simpl.
  destruct b.
  - rewrite decide_True by done. rewrite fmap_cons. simpl.
    apply andb_true_iff. split; [done | by apply IH].
  - rewrite decide_False by done. by apply IH.
Qed.

(** C2 (as amended): after any sequence of [update_watermark] calls, all
    for table names without ['='], line break or leading whitespace, on a
    store that had no file, [get_watermark(table)] returns the timestamp of
    the last call for that table that wrote its record, and the sentinel
    1900-01-01T00:00:00 when there is none. *)
Theorem get_watermark_last_write_wins (cs : list set_call) (table : string) :
  forallb wf_set_call cs = true →
  fst (get_watermark table (run_sets fresh_state cs))
  = Ok (default sentinel (last_for table (successful cs))).
Proof.
  intros Hcs. unfold get_watermark. simpl.
  apply (read_log_state _ (successful cs)).
  - apply (run_sets_log cs fresh_state []). by right.
  - by apply successful_wf.
Qed.

Lemma get_watermark_last_write_wins_witness :
  fst (get_watermark "fact_sales"
         (run_sets fresh_state
            [(true, "fact_sales", mkdatetime 2024 1 15 10 30 0 0);
             (true, "fact_inventory", mkdatetime 2024 3 1 0 0 0 0);
             (true, "fact_sales", mkdatetime 2024 2 1 8 0 0 250000);
             (false, "fact_sales", mkdatetime 2024 5 5 5 5 5 0)]))
  = Ok (mkdatetime 2024 2 1 8 0 0 250000).
Proof.
  apply (get_watermark_last_write_wins
           [(true, "fact_sales", mkdatetime 2024 1 15 10 30 0 0);
            (true, "fact_inventory", mkdatetime 2024 3 1 0 0 0 0);
            (true, "fact_sales", mkdatetime 2024 2 1 8 0 0 250000);
            (false, "fact_sales", mkdatetime 2024 5 5 5 5 5 0)] "fact_sales");
    reflexivity.
Defined.

(** C2 as stated fails for a table name that contains ['=']: the record
    written for it splits into three parts and the next read raises. *)
Lemma get_watermark_after_set_raises :
  let ts := mkdatetime 2024 1 15 10 30 0 0 in
  let st := run_sets fresh_state [(true, "a=b", ts)] in
  watermark_file st = Some ("a=b=2024-01-15T10:30:00" +:+ newline)
  ∧ fst (get_watermark "a=b" st) = Raise ValueError
  ∧ fst (get_watermark "a=b" st) ≠ Ok ts.
Proof. repeat split; [reflexivity.. | discriminate]. Qed.

End WatermarkStore.

(** * WatermarkStore: a partial trailing record *)

Section PartialRecord.
Import CloudMigrationPipeline.

Lemma all_chars_lstrip P s : all_chars P s = true → all_chars P (lstrip s) = true.
Proof.
  induction s as [|c s IH]; simpl; [done|].
  intros [Hc Hs]%andb_true_iff. destruct (is_space c); [by apply IH|].
  simpl. by rewrite Hc, Hs.
Qed.

Lemma all_chars_rstrip P s : all_chars P s = true → all_chars P (rstrip s) = true.
Proof.
  induction s as [|c s IH]; simpl; [done|].
  intros [Hc Hs]%andb_true_iff. specialize (IH Hs).
  destruct (rstrip s) eqn:E.
  - destruct (is_space c); simpl; [done | by rewrite Hc].
  - simpl in *. by rewrite Hc, IH.
Qed.

Lemma readlines_no_break a :
  all_chars (λ c, negb (Ascii.eqb c LF) && negb (Ascii.eqb c CR)) a = true →
  a ≠ "" → readlines a = [a].
Proof.
  induction a as [|x a IH]; [done|]. simpl.
  intros [[H1 H2]%andb_true_iff Ha]%andb_true_iff _.
  apply negb_true_iff in H1, H2. rewrite H1, H2.
  destruct a as [|y a]; [done|]. by rewrite IH.
Qed.

(** A line without ['='] is read as a single item. *)
Lemma parse_line_single s :
  all_chars plain_char s = true → parse_line s = [strip s].
Proof.
  intros Hs. unfold parse_line. apply split_no_sep.
  apply plain_no_eq. unfold strip. by apply all_chars_rstrip, all_chars_lstrip.
Qed.

(** A line [table=text] cut before its end is still read as a pair. *)
Lemma parse_line_cut t v :
  wf_table t = true → all_chars iso_char v = true →
  parse_line (t +:+ "=" +:+ v) = [t; v].
Proof.
  intros Ht Hv. unfold parse_line, strip.
  assert (lstrip (t +:+ "=" +:+ v) = t +:+ "=" +:+ v) as ->.
  { unfold wf_table in Ht. apply andb_true_iff in Ht as [_ Ht].
    destruct t as [|c t]; [done|]. apply negb_true_iff in Ht.
    simpl. by rewrite Ht. }
  assert (rstrip (t +:+ "=" +:+ v) = t +:+ "=" +:+ v) as ->.
  { apply rstrip_app_nonspace; [|done].
    simpl. revert Hv. apply all_chars_impl. unfold iso_char.
    by intros c [_ ?]%andb_true_iff. }
  change (t +:+ "=" +:+ v) with (t +:+ String "=" v).
  rewrite split_app_sep by (by apply plain_no_eq, wf_table_plain).
  rewrite split_no_sep; [done|].
  apply plain_no_eq. revert Hv. apply all_chars_impl, plain_char_iso.
Qed.

Lemma truncate_to_leb c d :
  valid_datetime d = true → dt_leb (truncate_to c d) d = true.
Proof.
  intros Hv.
  pose proof (valid_datetime_bounds d Hv) as (Hy & Hm & Hd & Hh & Hmi & Hs & Hus).
  unfold dt_leb, dt_compare, fields.
  destruct c;
    cbn [truncate_to year month day hour minute second microsecond lex_compare];
    repeat first
      [ rewrite Z.compare_refl; cbn [lex_compare]
      | match goal with
        | |- context [Z.compare 0 ?x] =>
            destruct (Z.compare_spec 0 x); cbn [lex_compare]; try lia
        end ];
    done.
Qed.

(** C6 (as amended): a partial trailing record is not ignored.  When the
    record stops before its ['='], [get_watermark] raises ValueError for
    every table; when it stops after the ['='], [get_watermark] of any other
    table still returns that table's last complete watermark, or the
    sentinel; and when the record of a table stops at the end of the date,
    the hour, the minute or the second of its timestamp, [get_watermark] of
    that table returns the timestamp cut there, which is not above the
    timestamp that was being written, in place of the last complete
    value. *)
Theorem partial_record_not_ignored (rs : list (string * datetime)) :
  forallb wf_record rs = true →
  (∀ partial table,
     partial ≠ "" → all_chars plain_char partial = true →
     fst (get_watermark table (with_file (render rs +:+ partial)))
     = Raise ValueError)
  ∧ (∀ t v table,
       wf_table t = true → all_chars iso_char v = true → table ≠ t →
       fst (get_watermark table (with_file (render rs +:+ t +:+ "=" +:+ v)))
       = Ok (default sentinel (last_for table rs)))
  ∧ (∀ t d c,
       wf_table t = true → valid_datetime d = true →
       fst (get_watermark t
              (with_file (render rs +:+ t +:+ "="
                          +:+ substring 0 (cut_length c) (isoformat d))))
       = Ok (truncate_to c d)
       ∧ dt_leb (truncate_to c d) d = true).
Proof.
  intros Hrs.
  assert (∀ t v, wf_table t = true → all_chars iso_char v = true →
            readlines (t +:+ "=" +:+ v) = [t +:+ "=" +:+ v]) as Hline.
  { intros t v Ht Hv. apply readlines_no_break; [|destruct t; simpl; congruence].
    rewrite !all_chars_app.
    rewrite (plain_no_break t) by (by apply wf_table_plain). simpl.
    apply plain_no_break. revert Hv. apply all_chars_impl, plain_char_iso. }
  split_and!.
  - intros partial table Hne Hplain.
    unfold get_watermark, with_file, read_watermark. cbn [fst watermark_file].
    change (λ line, split "=" (strip line)) with parse_line.
    rewrite lines_render by done.
    rewrite readlines_no_break by (by apply plain_no_break || done).
    cbn [map]. rewrite parse_line_single by done.
    rewrite dict_of_records. reflexivity.
  - intros t v table Ht Hv Hneq.
    unfold get_watermark, with_file, read_watermark. cbn [fst watermark_file].
    change (λ line, split "=" (strip line)) with parse_line.
    rewrite lines_render, Hline by done.
    cbn [map]. rewrite parse_line_cut by done.
    rewrite dict_of_records. cbn [dict_of rbind].
    rewrite lookup_insert_ne by done.
    rewrite lookup_records, lookup_empty.
    destruct (last_for table rs) as [d|] eqn:E; simpl.
    + apply fromisoformat_isoformat. by eapply last_for_valid.
    + reflexivity.
  - intros t d c Ht Hd. split; [|by apply truncate_to_leb].
    pose proof (iso_char_cut c d) as Hv.
    unfold get_watermark, with_file, read_watermark. cbn [fst watermark_file].
    change (λ line, split "=" (strip line)) with parse_line.
    rewrite lines_render, Hline by done.
    cbn [map]. rewrite parse_line_cut by done.
    rewrite dict_of_records. cbn [dict_of rbind].
    rewrite lookup_insert_eq. cbn [default].
    by apply fromisoformat_cut.
Qed.

Lemma partial_record_not_ignored_witness :
  fst (get_watermark "fact_sales"
         (with_file (render [("fact_sales", mkdatetime 2024 1 15 10 30 0 0)]
                     +:+ "fact_inv")))
  = Raise ValueError
  ∧ fst (get_watermark "fact_sales"
           (with_file (render [("fact_sales", mkdatetime 2024 1 15 10 30 0 0)]
                       +:+ "fact_inventory" +:+ "=" +:+ "2024-03")))
    = Ok (mkdatetime 2024 1 15 10 30 0 0)
  ∧ fst (get_watermark "fact_sales"
           (with_file (render [("fact_sales", mkdatetime 2024 1 15 10 30 0 0)]
                       +:+ "fact_sales" +:+ "=" +:+ "2024-02-01T08")))
    = Ok (mkdatetime 2024 2 1 8 0 0 0).
Proof.
  pose proof (partial_record_not_ignored
                [("fact_sales", mkdatetime 2024 1 15 10 30 0 0)] eq_refl)
    as (Hcut & Hother & Hown).
  split_and!.
  - apply Hcut; [discriminate | reflexivity].
  - apply (Hother "fact_inventory" "2024-03" "fact_sales");
      [reflexivity | reflexivity | discriminate].
  - exact (proj1 (Hown "fact_sales" (mkdatetime 2024 2 1 8 45 10 250000) AfterHour
                    eq_refl eq_refl)).
Defined.

(** C6 as stated fails: a trailing record cut inside the table name makes
    the read raise instead of returning the last complete watermark. *)
Lemma partial_record_breaks_get :
  let ts := mkdatetime 2024 1 15 10 30 0 0 in
  let st := with_file (render [("fact_sales", ts)] +:+ "fact_sa") in
  fst (get_watermark "fact_sales" st) = Raise ValueError
  ∧ fst (get_watermark "fact_sales" st) ≠ Ok ts.
Proof. split; [reflexivity | discriminate]. Qed.

(** A record cut inside the timestamp can still parse: the truncated
    value then silently replaces the last complete one. *)
Example partial_record_replaces_value :
  fst (get_watermark "fact_sales"
         (with_file (render [("fact_sales", mkdatetime 2024 1 15 10 30 0 0)]
                     +:+ "fact_sales=2023-06-01T08")))
  = Ok (mkdatetime 2023 6 1 8 0 0 0).
Proof. reflexivity. Qed.

End PartialRecord.

(** * The order on timestamps *)

Section TimestampOrder.

Lemma lex_compare_refl a : lex_compare a a = Eq.
Proof. induction a as [|x a IH]; simpl; [done|]. by rewrite Z.compare_refl. Qed.

Lemma lex_compare_eq a : ∀ b, lex_compare a b = Eq → a = b.
Proof.
  induction a as [|x a IH]; intros [|y b]; simpl; try done.
  destruct (Z.compare_spec x y); try done. intros ?. subst. f_equal. auto.
Qed.

Lemma lex_compare_antisym a : ∀ b, lex_compare b a = CompOpp (lex_compare a b).
Proof.
  induction a as [|x a IH]; intros [|y b]; simpl; try done.
  rewrite (Z.compare_antisym x y).
  destruct (Z.compare_spec x y); simpl; auto.
Qed.

Lemma lex_compare_lt_trans a : ∀ b c,
  lex_compare a b = Lt → lex_compare b c = Lt → lex_compare a c = Lt.
Proof.
  induction a as [|x a IH]; intros [|y b] [|z c]; simpl; try done.
  destruct (Z.compare_spec x y), (Z.compare_spec y z); try done; subst; intros ??.
  - rewrite Z.compare_refl. eauto.
  - by apply Z.compare_lt_iff in H0 as ->.
  - by apply Z.compare_lt_iff in H as ->.
  - assert (x < z) as ->%Z.compare_lt_iff by lia. done.
Qed.

Lemma dt_leb_refl a : dt_leb a a = true.
Proof. unfold dt_leb, dt_compare. by rewrite lex_compare_refl. Qed.

Lemma dt_ltb_leb a b : dt_ltb a b = true → dt_leb a b = true.
Proof. unfold dt_ltb, dt_leb. by destruct (dt_compare a b). Qed.

Lemma dt_ltb_false a b : dt_ltb a b = false → dt_leb b a = true.
Proof.
  unfold dt_ltb, dt_leb, dt_compare.
  rewrite (lex_compare_antisym (fields a) (fields b)).
  by destruct (lex_compare (fields a) (fields b)).
Qed.

Lemma dt_leb_trans a b c : dt_leb a b = true → dt_leb b c = true → dt_leb a c = true.
Proof.
  unfold dt_leb, dt_compare.
  destruct (lex_compare (fields a) (fields b)) eqn:Hab; try done;
  destruct (lex_compare (fields b) (fields c)) eqn:Hbc; try done; intros _ _.
  - apply lex_compare_eq in Hab. by rewrite Hab, Hbc.
  - apply lex_compare_eq in Hab. by rewrite Hab, Hbc.
  - apply lex_compare_eq in Hbc. by rewrite <- Hbc, Hab.
  - by rewrite (lex_compare_lt_trans _ _ _ Hab Hbc).
Qed.

Lemma dt_ltb_leb_trans a b c : dt_ltb a b = true → dt_leb b c = true → dt_ltb a c = true.
Proof.
  unfold dt_ltb, dt_leb, dt_compare.
  destruct (lex_compare (fields a) (fields b)) eqn:Hab; try done;
  destruct (lex_compare (fields b) (fields c)) eqn:Hbc; try done; intros _ _.
  - apply lex_compare_eq in Hbc. by rewrite <- Hbc, Hab.
  - by rewrite (lex_compare_lt_trans _ _ _ Hab Hbc).
Qed.

Lemma dt_max_l a b : dt_leb a (dt_max a b) = true.
Proof.
  unfold dt_max. destruct (dt_ltb a b) eqn:E;
    [by apply dt_ltb_leb | apply dt_leb_refl].
Qed.

Lemma dt_max_r a b : dt_leb b (dt_max a b) = true.
Proof.
  unfold dt_max. destruct (dt_ltb a b) eqn:E;
    [apply dt_leb_refl | by apply dt_ltb_false].
Qed.

Lemma dt_max_cases a b : dt_max a b = a ∨ dt_max a b = b.
Proof. unfold dt_max. destruct (dt_ltb a b); auto. Qed.

Import CloudMigrationPipeline.

Lemma max_time_fold cells : max_time cells = fold_left max_step cells None.
Proof. reflexivity. Qed.

Lemma fold_max_in cells : ∀ acc m,
  fold_left max_step cells acc = Some m → acc = Some m ∨ Some m ∈ cells.
Proof.
  induction cells as [|c cells IH]; intros acc m; simpl; [auto|].
  intros [Hacc | Hin]%IH; [|right; by apply list_elem_of_further].
  destruct acc as [a|], c as [d|]; simpl in Hacc; simplify_eq; auto.
  - destruct (dt_max_cases a d) as [-> | ->]; [auto | right; apply list_elem_of_here].
  - right. apply list_elem_of_here.
Qed.

Lemma fold_max_is_some cells : ∀ acc,
  is_Some acc → is_Some (fold_left max_step cells acc).
Proof.
  induction cells as [|c cells IH]; intros acc Hacc; simpl; [done|].
  apply IH. destruct Hacc as [a ->]. destruct c; simpl; eauto.
Qed.

Lemma fold_max_upper cells : ∀ acc m,
  fold_left max_step cells acc = Some m →
  (∀ a, acc = Some a → dt_leb a m = true)
  ∧ (∀ d, Some d ∈ cells → dt_leb d m = true).
Proof.
  induction cells as [|c cells IH]; intros acc m; simpl.
  - intros ->. split; [intros a [= ->]; apply dt_leb_refl|].
    intros d Hd. by apply elem_of_nil in Hd.
  - intros [Hacc Hcells]%IH. split.
    + intros a ->. destruct c as [d|]; simpl in Hacc.
      * eapply dt_leb_trans; [apply dt_max_l | by apply Hacc].
      * by apply Hacc.
    + intros d [[= <-] | Hin]%elem_of_cons; [|by apply Hcells].
      destruct acc as [a|]; simpl in Hacc.
      * eapply dt_leb_trans; [apply dt_max_r | by apply Hacc].
      * by apply Hacc.
Qed.

(** [max_time] returns a cell of the column that bounds all the others. *)
Lemma max_time_spec cells m :
  max_time cells = Some m →
  Some m ∈ cells ∧ ∀ d, Some d ∈ cells → dt_leb d m = true.
Proof.
  rewrite max_time_fold. intros Hm. split.
  - by destruct (fold_max_in _ _ _ Hm).
  - by apply (fold_max_upper _ _ _ Hm).
Qed.

Lemma max_time_is_some cells d : Some d ∈ cells → is_Some (max_time cells).
Proof.
  rewrite max_time_fold. generalize (@None datetime).
  induction cells as [|c cells IH]; intros acc Hin; [by apply elem_of_nil in Hin|].
  simpl. apply elem_of_cons in Hin as [<- | Hin]; [|by apply IH].
  apply fold_max_is_some. destruct acc; simpl; eauto.
Qed.

End TimestampOrder.

(** * The orchestrator: [migrate_table] *)

Section Orchestrator.
Import CloudMigrationPipeline.

Lemma connecting_ok w cfg :
  connects w cfg = true →
  ∃ s d u p, cfg !! "server" = Some s ∧ cfg !! "database" = Some d
    ∧ cfg !! "username" = Some u ∧ cfg !! "password" = Some p
    ∧ connect w s d u p = Ok tt.
Proof.
  unfold connects. repeat case_match; try done.
  intros _. destruct a. eauto 10.
Qed.

(** Every way a run can end: the watermark file is as it was, or the run
    was incremental, loaded its batch, and called [update_watermark] with
    the maximum of the batch's [lastmodified] column. *)
Lemma migrate_table_cases w cfg t incremental st :
  let r := fst (migrate_table w cfg t incremental st) in
  let st' := snd (migrate_table w cfg t incremental st) in
  watermark_file st' = watermark_file st
  ∨ (r = Ok tt ∧ incremental = true
     ∧ ∃ wm df df' c v,
         read_watermark (watermark_file st) t = Ok wm
         ∧ read_sql w t (Some wm) = Ok df
         ∧ nrows df ≠ 0%nat
         ∧ transform_frame w df = Ok df'
         ∧ to_parquet w (bronze_path w t) df' = Ok tt
         ∧ lake st' = (lake st ++ [(bronze_path w t, df')])%list
         ∧ get_column df' "lastmodified" = Ok c
         ∧ series_max w c = Ok v
         ∧ watermark_writable w = true
         ∧ watermark_file st' = snd (append_watermark (watermark_file st) t v)).
Proof.
  unfold migrate_table, connect_onprem_sql, extract_data, transform_for_synapse,
    load_to_adls, update_watermark, get_watermark, lookup_config,
    bind, ret, raise, lift, log, try_except, try_finally.
  cbn -[append_watermark read_watermark transform_frame get_column series_max
        parquet_path].
  repeat (case_match; simplify_eq/=; try (left; reflexivity)).
  all: right; repeat match goal with u : unit |- _ => destruct u end.
  all: repeat split; try done.
  all: eexists _, _, _, _, _; repeat split; try eassumption; try done.
  all: try (by apply Nat.eqb_neq).
  all: match goal with H : append_watermark _ _ _ = _ |- _ => by rewrite H end.
Qed.

Ltac exec_migrate :=
  unfold migrate_table, connect_onprem_sql, extract_data, transform_for_synapse,
    load_to_adls, update_watermark, get_watermark, lookup_config,
    bind, ret, raise, lift, log, try_except, try_finally;
  cbn -[append_watermark read_watermark transform_frame get_column series_max
        parquet_path].

Ltac exec_step :=
  cbn -[append_watermark read_watermark transform_frame get_column series_max
        parquet_path].

Ltac exec_with H := rewrite H; exec_step.

(** C9: when the extraction returns zero rows, [migrate_table] returns
    normally; the watermark file and the lake are as before, and the log
    shows the connection, the extraction and "no new data" only: neither
    the Transformer nor the Loader nor [update_watermark] ran. *)
Theorem zero_rows_nothing_to_do w cfg table incremental st df :
  connects w cfg = true →
  extraction w (watermark_file st) table incremental = Ok df →
  nrows df = 0%nat →
  migrate_table w cfg table incremental st
  = (Ok tt,
     mkstate (watermark_file st) (lake st)
       (trace st ++ [LogStarting table; connected_event cfg;
                     mode_event (watermark_file st) table incremental;
                     LogExtracted 0 table; LogNoNewData table; ConnClosed])).
Proof.
  intros (s & d & u & p & Hs & Hd & Hu & Hp & Hc)%connecting_ok Hext Hrows.
  unfold connected_event, mode_event, extraction in *.
  exec_migrate. rewrite Hs, Hd, Hu, Hp. exec_with Hc.
  destruct incremental; exec_step.
  - destruct (read_watermark (watermark_file st) table) as [wm|] eqn:Hwm; [|done].
    simpl in Hext. exec_step. exec_with Hext. rewrite Hrows. simpl.
    by rewrite <- !app_assoc.
  - exec_with Hext. rewrite Hrows. simpl. by rewrite <- !app_assoc.
Qed.

Lemma zero_rows_nothing_to_do_witness :
  let w := demo_world (select_rows [(1, mkdatetime 2024 1 15 10 30 0 0)]) in
  let st := with_file (render [("fact_sales", mkdatetime 2024 1 15 10 30 0 0)]) in
  migrate_table w demo_config "fact_sales" true st
  = (Ok tt,
     mkstate (watermark_file st) []
       [LogStarting "fact_sales"; connected_event demo_config;
        LogIncremental "fact_sales" (mkdatetime 2024 1 15 10 30 0 0);
        LogExtracted 0 "fact_sales"; LogNoNewData "fact_sales"; ConnClosed]).
Proof.
  intros w st.
  exact (zero_rows_nothing_to_do w demo_config "fact_sales" true st
           (mkframe 0 [("Id", ColInt []); ("LastModified", ColTime [])])
           eq_refl eq_refl eq_refl).
Defined.

Lemma map_column_columns name f df : columns (map_column name f df) = columns df.
Proof.
  unfold columns, map_column. simpl. rewrite map_map.
  apply map_ext. intros [n c]. simpl. by case_bool_decide.
Qed.

Lemma coerce_columns_columns w labels : ∀ df df',
  coerce_columns w labels df = Ok df' → columns df' = columns df.
Proof.
  induction labels as [|l labels IH]; intros df df'; simpl.
  - by intros [= ->].
  - case_match; [done|]. intros ->%IH. apply map_column_columns.
Qed.

Lemma set_column_elem x df name c :
  x ∈ columns (set_column df name c) ↔ x ∈ columns df ∨ x = name.
Proof.
  unfold set_column. case_bool_decide as Hin.
  - rewrite map_column_columns. split; [auto|]. by intros [? | ->].
  - unfold columns. simpl. rewrite map_app. simpl.
    rewrite elem_of_app, list_elem_of_singleton. done.
Qed.

(** The labels after the Transformer: the normalized labels of the batch
    and the three lineage columns. *)
Lemma transform_frame_columns w df df' x :
  transform_frame w df = Ok df' →
  x ∈ columns df' ↔
  x ∈ map normalize (columns df)
  ∨ x = "_ingestion_timestamp" ∨ x = "_source_system" ∨ x = "_migration_batch_id".
Proof.
  unfold transform_frame.
  destruct (coerce_columns _ _ _) as [df1|] eqn:Hco; simpl; [|done].
  intros [= <-]. apply coerce_columns_columns in Hco.
  rewrite !set_column_elem, Hco. unfold columns. simpl.
  rewrite !map_map. simpl. tauto.
Qed.

Lemma get_column_elem df name :
  name ∈ columns df ↔ ∃ c, get_column df name = Ok c.
Proof.
  unfold get_column, columns.
  induction (cols df) as [|[n c] l IH]; simpl.
  - split; [by intros ?%elem_of_nil | by intros [? ?]].
  - rewrite elem_of_cons. case_bool_decide; subst.
    + split; eauto.
    + rewrite <- IH. split; [by intros [? | ?] | auto].
Qed.

(** C10 (as amended): an incremental run whose batch is not empty and has
    no column that normalizes to [lastmodified] returns normally whenever
    the Transformer and the Loader do not fail: extract, transform and load
    have run, the batch is in the lake, [update_watermark] is not called
    and the watermark file is as it was. *)
Theorem missing_lastmodified_skips_watermark w cfg table st watermark df df' :
  connects w cfg = true →
  read_watermark (watermark_file st) table = Ok watermark →
  read_sql w table (Some watermark) = Ok df →
  nrows df ≠ 0%nat →
  "lastmodified" ∉ map normalize (columns df) →
  transform_frame w df = Ok df' →
  to_parquet w (bronze_path w table) df' = Ok tt →
  migrate_table w cfg table true st
  = (Ok tt,
     mkstate (watermark_file st)
       (lake st ++ [(bronze_path w table, df')])
       (trace st ++ [LogStarting table; connected_event cfg;
                     LogIncremental table watermark;
                     LogExtracted (nrows df) table;
                     LogTransformed (nrows df') (length (cols df'));
                     LogLoaded (nrows df') (bronze_path w table);
                     LogCompleted table (nrows df'); ConnClosed])).
Proof.
  intros (s & d & u & p & Hs & Hd & Hu & Hp & Hc)%connecting_ok
    Hwm Hsql Hrows Hlabel Htr Hload.
  assert ("lastmodified" ∉ columns df') as Hnot.
  { rewrite (transform_frame_columns _ _ _ _ Htr).
    intros [? | [? | [? | ?]]]; done. }
  unfold connected_event, bronze_path in *.
  exec_migrate. rewrite Hs, Hd, Hu, Hp. exec_with Hc.
  exec_with Hwm. exec_with Hsql.
  apply Nat.eqb_neq in Hrows. exec_with Hrows.
  exec_with Htr. exec_with Hload.
  rewrite bool_decide_false by done. exec_step.
  by rewrite <- !app_assoc.
Qed.

Lemma coerce_columns_nrows w labels : ∀ df df',
  coerce_columns w labels df = Ok df' → nrows df' = nrows df.
Proof.
  induction labels as [|l labels IH]; intros df df'; simpl.
  - by intros [= ->].
  - case_match; [done|]. by intros ->%IH.
Qed.

Lemma set_column_nrows df name c : nrows (set_column df name c) = nrows df.
Proof. unfold set_column. by case_bool_decide. Qed.

Lemma transform_frame_nrows w df df' :
  transform_frame w df = Ok df' → nrows df' = nrows df.
Proof.
  unfold transform_frame.
  destruct (coerce_columns _ _ _) as [df1|] eqn:Hco; simpl; [|done].
  intros [= <-]. apply coerce_columns_nrows in Hco.
  by rewrite !set_column_nrows, Hco.
Qed.

Lemma last_for_snoc table rs t d :
  last_for table (rs ++ [(t, d)])
  = if bool_decide (t = table) then Some d else last_for table rs.
Proof.
  induction rs as [|[t' d'] rs IH]; simpl; [done|].
  rewrite IH. by case_bool_decide.
Qed.

Lemma forallb_wf_snoc rs r :
  forallb wf_record rs = true → wf_record r = true →
  forallb wf_record (rs ++ [r]) = true.
Proof. intros Hrs Hr. rewrite forallb_app. simpl. by rewrite Hrs, Hr. Qed.

Lemma log_state_opened file rs : log_state file rs → log_state (Some (default "" file)) rs.
Proof. intros [-> | [-> ->]]; by left. Qed.

(** One run keeps the file a log of complete records and lowers the
    watermark of no table. *)
Lemma exec_run_log (r : run) st rs :
  honest_run r →
  log_state (watermark_file st) rs → forallb wf_record rs = true →
  ∃ rs', log_state (watermark_file (exec_run st r)) rs'
    ∧ forallb wf_record rs' = true
    ∧ ∀ table, dt_leb (default sentinel (last_for table rs))
                      (default sentinel (last_for table rs')) = true.
Proof.
  destruct r as [[[w cfg] t] incremental]. unfold honest_run, exec_run. simpl.
  intros [Ht Habove] Hlog Hrs.
  destruct (migrate_table_cases w cfg t incremental st)
    as [Hsame | (_ & _ & wm & df & df' & c & v & Hwm & Hsql & Hrows & Htr
                 & _ & _ & Hcol & Hmax & _ & Hfile)].
  { exists rs. rewrite Hsame. split_and!; auto using dt_leb_refl. }
  rewrite Hfile. specialize (Habove wm). unfold extracts_above in Habove.
  rewrite Hsql, Htr, Hcol in Habove.
  destruct c as [ints | cells | objs]; simpl in Hmax; [| |done].
  - exists rs. split_and!; auto using dt_leb_refl.
    unfold append_watermark.
    destruct (max_int ints); simplify_eq/=; by apply log_state_opened.
  - apply andb_true_iff in Habove as [Hlen Hcells].
    apply Nat.eqb_eq in Hlen. rewrite (transform_frame_nrows _ _ _ Htr) in Hlen.
    rewrite forallb_forall in Hcells.
    destruct cells as [|c0 cells]; [done|].
    assert (∃ d0, c0 = Some d0) as [d0 ->].
    { specialize (Hcells c0 (or_introl eq_refl)). destruct c0; [eauto | done]. }
    destruct (max_time_is_some (Some d0 :: cells) d0) as [m Hm];
      [apply list_elem_of_here|].
    rewrite Hm in Hmax. simplify_eq.
    destruct (max_time_spec _ _ Hm) as [Hin _].
    apply list_elem_of_In, Hcells in Hin.
    apply andb_true_iff in Hin as [Hlt Hvalid].
    exists (rs ++ [(t, m)])%list.
    erewrite append_log_state by done. split_and!.
    + by left.
    + apply forallb_wf_snoc; [done|]. unfold wf_record. simpl. by rewrite Ht, Hvalid.
    + intros table. rewrite last_for_snoc. case_bool_decide; [|apply dt_leb_refl].
      subst. simpl. apply dt_ltb_leb.
      rewrite (read_log_state _ rs) in Hwm by done. by simplify_eq.
Qed.

(** C7 (as amended): for table names without ['='], line break or leading
    whitespace, a log of complete records, and sources that return only
    rows whose change-tracking value is above the watermark they are asked
    for, no sequence of [migrate_table] runs, successful or failed, makes
    [get_watermark(table)] return a smaller timestamp than it returned
    before. *)
Theorem watermark_never_decreases (runs : list run) st rs table :
  log_state (watermark_file st) rs →
  forallb wf_record rs = true →
  Forall honest_run runs →
  ∃ before after,
    fst (get_watermark table st) = Ok before
    ∧ fst (get_watermark table (exec_runs st runs)) = Ok after
    ∧ dt_leb before after = true.
Proof.
  intros Hlog Hrs Hruns.
  assert (∃ rs', log_state (watermark_file (exec_runs st runs)) rs'
            ∧ forallb wf_record rs' = true
            ∧ ∀ table, dt_leb (default sentinel (last_for table rs))
                              (default sentinel (last_for table rs')) = true)
    as (rs' & Hlog' & Hrs' & Hle).
  { revert st rs Hlog Hrs.
    induction Hruns as [|r runs Hr _ IH]; intros st rs Hlog Hrs.
    - exists rs. split_and!; auto using dt_leb_refl.
    - destruct (exec_run_log r st rs Hr Hlog Hrs) as (rs1 & Hlog1 & Hrs1 & Hle1).
      destruct (IH _ _ Hlog1 Hrs1) as (rs2 & Hlog2 & Hrs2 & Hle2).
      exists rs2. split_and!; [done..|].
      intros t. eapply dt_leb_trans; eauto. }
  exists (default sentinel (last_for table rs)),
         (default sentinel (last_for table rs')).
  unfold get_watermark. simpl. split_and!; auto using read_log_state.
Qed.

(** A table queried with [select_rows] honours the predicate. *)
Lemma select_rows_above rows table watermark :
  forallb (λ r, valid_datetime (snd r)) rows = true →
  extracts_above (demo_world (select_rows rows)) table watermark = true.
Proof.
  intros Hvalid. unfold extracts_above, demo_world, select_rows. simpl.
  rewrite length_map, Nat.eqb_refl. simpl.
  rewrite forallb_forall. intros c [[z d] [<- Hin]]%in_map_iff.
  apply filter_In in Hin as [Hin Hlt]. simpl in *. rewrite Hlt.
  rewrite forallb_forall in Hvalid. by apply (Hvalid (z, d)).
Qed.

Lemma watermark_never_decreases_witness :
  ∃ before after,
    fst (get_watermark "fact_sales" fresh_state) = Ok before
    ∧ fst (get_watermark "fact_sales"
             (exec_runs fresh_state
                [(demo_world (select_rows [(1, mkdatetime 2024 1 15 10 30 0 0);
                                           (2, mkdatetime 2024 2 1 8 0 0 0)]),
                  demo_config, "fact_sales", true);
                 (demo_world (select_rows [(1, mkdatetime 2024 1 15 10 30 0 0);
                                           (2, mkdatetime 2024 2 1 8 0 0 0)]),
                  demo_config, "fact_sales", true)]))
      = Ok after
    ∧ dt_leb before after = true.
Proof.
  apply (watermark_never_decreases _ fresh_state []).
  - by right.
  - reflexivity.
  - repeat constructor; simpl; intros; by apply select_rows_above.
Defined.

(** C7 as stated fails when a table name starts with whitespace: the record
    written for [" t"] is read back as a record of ["t"], so a successful
    incremental run of [" t"], whose source honours the predicate, lowers
    the watermark of ["t"]. *)
Lemma watermark_decreases_for_other_table :
  let w := demo_world (select_rows [(1, mkdatetime 2020 6 1 0 0 0 0)]) in
  let st := with_file (render [("t", mkdatetime 2024 1 1 0 0 0 0)]) in
  let st' := exec_runs st [(w, demo_config, " t", true)] in
  (∀ watermark, extracts_above w " t" watermark = true)
  ∧ fst (migrate_table w demo_config " t" true st) = Ok tt
  ∧ fst (get_watermark "t" st) = Ok (mkdatetime 2024 1 1 0 0 0 0)
  ∧ fst (get_watermark "t" st') = Ok (mkdatetime 2020 6 1 0 0 0 0)
  ∧ dt_leb (mkdatetime 2024 1 1 0 0 0 0) (mkdatetime 2020 6 1 0 0 0 0) = false.
Proof.
  split_and!; [|reflexivity..].
  intros watermark. by apply select_rows_above.
Qed.

Lemma missing_lastmodified_skips_watermark_witness :
  let w := demo_world (λ _, Ok (mkframe 2 [("Id", ColInt [1; 2]);
                                           ("Last Modified", ColInt [7; 9])])) in
  ∃ df',
    migrate_table w demo_config "fact_sales" true fresh_state
    = (Ok tt,
       mkstate None [(bronze_path w "fact_sales", df')]
         [LogStarting "fact_sales"; connected_event demo_config;
          LogIncremental "fact_sales" sentinel;
          LogExtracted 2 "fact_sales";
          LogTransformed 2 5;
          LogLoaded 2 (bronze_path w "fact_sales");
          LogCompleted "fact_sales" 2; ConnClosed]).
Proof.
  intros w. eexists.
  refine (missing_lastmodified_skips_watermark w demo_config "fact_sales"
            fresh_state sentinel _ _ eq_refl eq_refl eq_refl _ _ eq_refl eq_refl).
  - discriminate.
  - apply (proj1 (bool_decide_eq_false _)). reflexivity.
Defined.




(** When the watermark file cannot be opened, [update_watermark] logs the
    error and the run still returns normally, without an advance. *)
Example unwritable_log_skips_advance :
  let w0 := demo_world (select_rows [(1, mkdatetime 2024 1 15 10 30 0 0)]) in
  let w := mkworld (connect w0) (read_sql w0) (to_parquet w0) demo_now demo_now
             demo_now false (to_datetime w0) (object_max w0) in
  let out := migrate_table w demo_config "fact_sales" true fresh_state in
  fst out = Ok tt
  ∧ watermark_file (snd out) = None
  ∧ last (trace (snd out)) = Some ConnClosed
  ∧ LogWatermarkFailed ∈ trace (snd out).
Proof.
  split_and!; [reflexivity.. |].
  vm_compute. do 6 apply list_elem_of_further. apply list_elem_of_here.
Qed.


(** C10 as stated fails: a batch without a [lastmodified] column whose
    labels collide once normalized makes the Transformer raise, and the
    run raises with it; nothing is loaded. *)
Lemma missing_lastmodified_run_raises :
  let df := mkframe 1 [("Order ID", ColInt [1]); ("order_id", ColInt [1])] in
  let w := demo_world (λ _, Ok df) in
  let out := migrate_table w demo_config "fact_sales" true fresh_state in
  nrows df ≠ 0%nat
  ∧ ("lastmodified" ∉ map normalize (columns df))
  ∧ fst out = Raise AttributeError
  ∧ lake (snd out) = []
  ∧ watermark_file (snd out) = watermark_file fresh_state.
Proof.
  split_and!; [discriminate | | reflexivity..].
  apply (proj1 (bool_decide_eq_false _)). reflexivity.
Qed.

End Orchestrator.

(** * The row fingerprint *)

Section Fingerprint.
Import MigrationValidator.

(** C1 (as amended): the fingerprint of a row whose values are all
    integers is the same in every process; [hash] of an integer does not
    use the hash secret. *)
Theorem row_hash_of_integers_is_stable (p1 p2 : process) (row : list value) :
  forallb is_int row = true → row_hash p1 row = row_hash p2 row.
Proof.
  intros Hint. unfold row_hash. f_equal.
  induction row as [|v row IH]; [done|].
  simpl in *. apply andb_true_iff in Hint as [Hv Hrow].
  destruct v; try done. simpl. by rewrite IH.
Qed.

Lemma row_hash_of_integers_is_stable_witness :
  row_hash process_seed0 [VInt 1; VInt (-1); VInt 2305843009213693952]
  = row_hash process_seed1 [VInt 1; VInt (-1); VInt 2305843009213693952].
Proof. by apply row_hash_of_integers_is_stable. Defined.

(** C1 as stated fails: the fingerprint of a row that holds a string
    differs between two processes with different hash secrets. *)
Lemma row_hash_depends_on_process :
  row_hash process_seed0 [VInt 1; VStr "a"] = 3906047847676358913
  ∧ row_hash process_seed1 [VInt 1; VStr "a"] = -310571543557265681
  ∧ row_hash process_seed0 [VInt 1; VStr "a"]
    ≠ row_hash process_seed1 [VInt 1; VStr "a"].
Proof. split_and!; [vm_compute; reflexivity.. | vm_compute; discriminate]. Qed.

End Fingerprint.

(** * The validators and exceptions *)

Section ValidatorErrors.
Import MigrationValidator.

(** C5 fails on the code: [validate_nulls] has no [try] around its frame
    access, and a critical column that the frame lacks raises KeyError. *)
Theorem validate_nulls_raises_key_error :
  let h : heap := {[ 0%nat := mkframe ["id"; "name"]
                                [[VInt 1; VStr "Ada"]; [VInt 2; VNone]] ]} in
  fst (validate_nulls h 0%nat ["email"]) = Raise KeyError.
Proof. reflexivity. Qed.

(** The other two validators always return a Boolean. *)
Lemma validate_checksum_returns p h source_df target_df key_column :
  ∃ b, fst (validate_checksum p h source_df target_df key_column) = Ok b.
Proof.
  unfold validate_checksum.
  destruct (checksum_diff p h source_df target_df key_column) as [[diff|e] h']; eauto.
Qed.

Lemma validate_schema_returns h source_schema target_schema :
  ∃ b, fst (validate_schema h source_schema target_schema) = Ok b.
Proof. unfold validate_schema. case_bool_decide; eauto. Qed.

End ValidatorErrors.

(** * The checksum column *)

Section ChecksumColumn.
Import MigrationValidator.

Lemma map_fmap {A B} (f : A → B) (l : list A) : map f l = f <$> l.
Proof. induction l as [|x l IH]; csimpl; [done | by rewrite IH]. Qed.

Lemma wf_frame_widths df : wf_frame df = true → widths_ok df.
Proof.
  unfold wf_frame, widths_ok.
  intros [[_ Hrows]%andb_true_iff _]%andb_true_iff.
  rewrite forallb_forall in Hrows. apply Forall_forall.
  intros r Hr%list_elem_of_In. by apply Nat.eqb_eq, Hrows.
Qed.

Lemma index_of_lookup name cols i :
  index_of name cols = Some i → cols !! i = Some name.
Proof.
  revert i. induction cols as [|c cols IH]; intros i; simpl; [done|].
  case_bool_decide; [by intros [= <-]; subst|].
  destruct (index_of name cols) as [j|]; simpl; [|done].
  intros [= <-]. by apply IH.
Qed.

Lemma index_of_lt name cols i : index_of name cols = Some i → (i < length cols)%nat.
Proof. intros H%index_of_lookup. by eapply lookup_lt_Some. Qed.

Lemma index_of_None name cols : index_of name cols = None ↔ name ∉ cols.
Proof.
  induction cols as [|c cols IH]; simpl.
  - split; [intros _ ?%elem_of_nil; done | done].
  - rewrite not_elem_of_cons. case_bool_decide; subst.
    + split; [done | by intros [? _]].
    + destruct (index_of name cols); simpl.
      * split; [done|]. intros [_ Hn]. by apply IH in Hn.
      * split; [|done]. intros _. split; [done | by apply IH].
Qed.

Lemma index_of_app_l name cols more i :
  index_of name cols = Some i → index_of name (cols ++ more) = Some i.
Proof.
  revert i. induction cols as [|c cols IH]; intros i; simpl; [done|].
  case_bool_decide; [done|].
  destruct (index_of name cols) as [j|]; simpl; [|done].
  intros [= <-]. by rewrite (IH j).
Qed.

Lemma index_of_snoc name cols :
  index_of name cols = None → index_of name (cols ++ [name]) = Some (length cols).
Proof.
  induction cols as [|c cols IH]; simpl.
  - intros _. by rewrite bool_decide_true.
  - case_bool_decide; [done|].
    destruct (index_of name cols); simpl; [done|].
    intros _. by rewrite IH.
Qed.

Lemma add_checksum_rows p df :
  rows (add_checksum p df)
  = add_cell p (index_of "checksum" (columns df)) <$> rows df.
Proof.
  unfold add_checksum, set_column.
  destruct (index_of "checksum" (columns df)) as [j|]; simpl;
    by rewrite map_fmap, zip_with_fmap_r, zip_with_diag.
Qed.

Lemma add_checksum_columns p df :
  columns (add_checksum p df)
  = match index_of "checksum" (columns df) with
    | Some _ => columns df
    | None => columns df ++ ["checksum"]
    end.
Proof.
  unfold add_checksum, set_column.
  by destruct (index_of "checksum" (columns df)).
Qed.

Lemma add_checksum_index p df :
  ∃ j, index_of "checksum" (columns (add_checksum p df)) = Some j
       ∧ (index_of "checksum" (columns df) = Some j
          ∨ (index_of "checksum" (columns df) = None ∧ j = length (columns df))).
Proof.
  rewrite add_checksum_columns.
  destruct (index_of "checksum" (columns df)) as [j|] eqn:E.
  - exists j. auto.
  - exists (length (columns df)). split; [by apply index_of_snoc | auto].
Qed.






End ChecksumColumn.

(** * The validators and their inputs *)

Section FrameEffect.
Import MigrationValidator.


Lemma deref_insert_ne (h : heap) l l' df : l ≠ l' → deref (<[l := df]> h) l' = deref h l'.
Proof. intros. unfold deref. by rewrite lookup_insert_ne. Qed.

Lemma deref_lookup (h : heap) l df : h !! l = Some df → deref h l = df.
Proof. intros H. unfold deref. by rewrite H. Qed.






End FrameEffect.

(** * The checksum validator *)

Section TupleHash.
Import MigrationValidator.






















End TupleHash.

Section ChecksumValidator.
Import MigrationValidator.






(** The row keys of a frame once its checksum column is written. *)
Lemma row_keys_add p df key :
  widths_ok df → key ∈ columns df → key ≠ "checksum" →
  row_keys (add_checksum p df) key
  = Ok (row_key p (columns df) key <$> rows df).
Proof.
  intros Hw Hin Hkey.
  destruct (index_of key (columns df)) as [i|] eqn:Hi;
    [|by apply index_of_None in Hi].
  destruct (add_checksum_index p df) as (j & Hj & Hcases).
  assert (index_of key (columns (add_checksum p df)) = Some i) as Hi'.
  { rewrite add_checksum_columns.
    destruct (index_of "checksum" (columns df)); [done | by apply index_of_app_l]. }
  unfold row_keys, get_column. rewrite Hi', Hj. simpl.
  rewrite !map_fmap, zip_with_fmap_l, zip_with_fmap_r, zip_with_diag.
  rewrite add_checksum_rows, <- list_fmap_compose. f_equal.
  apply Forall_fmap_ext. eapply Forall_impl; [exact Hw|].
  intros r Hr. simpl in *. unfold row_key, key_text. rewrite Hi.
  pose proof (index_of_lt _ _ _ Hi) as Hlt.
  destruct Hcases as [Hj0 | [Hnone ->]].
  - rewrite Hj0. simpl.
    assert (i ≠ j) as Hij.
    { intros ->. apply index_of_lookup in Hi, Hj0. congruence. }
    pose proof (index_of_lt _ _ _ Hj0) as Hjlt.
    rewrite list_lookup_insert_ne by done.
    rewrite list_lookup_insert_eq by lia. done.
  - rewrite Hnone. simpl.
    rewrite lookup_app_l by lia.
    rewrite <- Hr, list_lookup_middle by done. done.
Qed.

(** The difference [validate_checksum] computes for two distinct frames
    that share the key column. *)
Lemma checksum_diff_distinct p (h : heap) src tgt key A B :
  src ≠ tgt → h !! src = Some A → h !! tgt = Some B →
  wf_frame A = true → wf_frame B = true →
  key ∈ columns A → key ∈ columns B → key ≠ "checksum" →
  fst (checksum_diff p h src tgt key)
  = Ok (symmetric_difference
          (list_to_set (row_key p (columns A) key <$> rows A))
          (list_to_set (row_key p (columns B) key <$> rows B))).
Proof.
  intros Hne HA HB HwA%wf_frame_widths HwB%wf_frame_widths HkA HkB Hkey.
  unfold checksum_diff, checksum_set.
  rewrite (deref_lookup h src A HA), row_keys_add by done. simpl.
  rewrite deref_insert_ne, (deref_lookup h tgt B HB) by done.
  rewrite row_keys_add by done. done.
Qed.

Lemma validate_checksum_of_diff p h src tgt key diff :
  fst (checksum_diff p h src tgt key) = Ok diff →
  fst (validate_checksum p h src tgt key) = Ok (Nat.eqb (size diff) 0).
Proof.
  unfold validate_checksum.
  destruct (checksum_diff p h src tgt key) as [[d|e] h']; simpl; [|done].
  by intros [= ->].
Qed.







(** The two arguments must be two objects: a frame checked against itself
    is hashed a second time with its checksum column in the rows, and
    fails. *)
Example validate_checksum_same_object :
  let A := mkframe ["id"; "amount"] [[VInt 1; VInt 10]; [VInt 2; VInt 20]] in
  fst (validate_checksum process_seed1 {[ 0%nat := A ]} 0%nat 0%nat "id") = Ok false.
Proof. vm_compute. reflexivity. Qed.

End ChecksumValidator.

(** * More on the validators *)

Section ValidatorVerdicts.
Import MigrationValidator.

Lemma get_column_present df c :
  c ∈ columns df ↔ ∃ cells, get_column df c = Ok cells.
Proof.
  unfold get_column. destruct (index_of c (columns df)) as [i|] eqn:Hi.
  - split; [eauto|]. intros _. apply index_of_lookup in Hi.
    by eapply list_elem_of_lookup_2.
  - split; [by apply index_of_None in Hi | by intros [? ?]].
Qed.

Lemma get_column_error df c e : get_column df c = Raise e → e = KeyError ∧ c ∉ columns df.
Proof.
  unfold get_column. destruct (index_of c (columns df)) eqn:Hi; [done|].
  intros [= <-]. split; [done | by apply index_of_None].
Qed.

Lemma null_counts_error df cc e :
  null_counts df cc = Raise e → e = KeyError ∧ ∃ c, c ∈ cc ∧ c ∉ columns df.
Proof.
  induction cc as [|c cc IH]; simpl; [done|].
  destruct (get_column df c) as [cells|e'] eqn:Hc; simpl.
  - destruct (null_counts df cc) as [rest|e''] eqn:Hcc; simpl; [done|].
    intros [= <-]. destruct (IH eq_refl) as [-> (c' & Hin & Hnot)].
    split; [done|]. exists c'. split; [by apply list_elem_of_further | done].
  - intros [= <-]. apply get_column_error in Hc as [-> Hnot].
    split; [done|]. exists c. split; [apply list_elem_of_here | done].
Qed.

Lemma null_counts_ok df cc counts :
  null_counts df cc = Ok counts →
  (∀ c, c ∈ cc → c ∈ columns df)
  ∧ ((∃ cn, cn ∈ counts ∧ (0 < snd cn)%nat)
     ↔ ∃ c cells, c ∈ cc ∧ get_column df c = Ok cells ∧ VNone ∈ cells).
Proof.
  revert counts. induction cc as [|c cc IH]; intros counts; simpl.
  - intros [= <-]. split; [by intros c ?%elem_of_nil|]. split.
    + by intros (cn & ?%elem_of_nil & _).
    + by intros (c & cells & ?%elem_of_nil & _).
  - destruct (get_column df c) as [cells|] eqn:Hc; simpl; [|done].
    destruct (null_counts df cc) as [rest|] eqn:Hcc; simpl; [|done].
    intros [= <-]. destruct (IH rest eq_refl) as [Hall Hiff]. split.
    + intros c' [-> | Hin]%elem_of_cons; [|by apply Hall].
      apply get_column_present. eauto.
    + assert ((0 < length (filter (λ v, is_null v = true) cells))%nat
              ↔ VNone ∈ cells) as Hcount.
      { split.
        - intros Hlen. destruct (filter _ cells) as [|v l] eqn:Hf; simpl in Hlen; [lia|].
          assert (v ∈ filter (λ v, is_null v = true) cells) as Hv
            by (rewrite Hf; apply list_elem_of_here).
          apply list_elem_of_filter in Hv as [Hnull Hv]. by destruct v.
        - intros Hin.
          assert (VNone ∈ filter (λ v, is_null v = true) cells) as Hv
            by (by apply list_elem_of_filter).
          destruct (filter _ cells); [by apply elem_of_nil in Hv | simpl; lia]. }
      split.
      * intros (cn & [-> | Hin]%elem_of_cons & Hpos).
        -- exists c, cells. split_and!; [apply list_elem_of_here | done |].
           by apply Hcount.
        -- destruct (proj1 Hiff (ex_intro _ cn (conj Hin Hpos)))
             as (c' & cells' & ? & ? & ?).
           exists c', cells'. split_and!; [by apply list_elem_of_further | done..].
      * intros (c' & cells' & [-> | Hin]%elem_of_cons & Hget & Hnone).
        -- exists (c, length (filter (λ v, is_null v = true) cells)).
           split; [apply list_elem_of_here|]. simpl. apply Hcount. congruence.
        -- destruct (proj2 Hiff) as (cn & ? & ?); [by eauto 6|].
           exists cn. split; [by apply list_elem_of_further | done].
Qed.

(** X1. The three outcomes of [validate_nulls] on a frame the model covers
    (unique column labels, rows as wide as the header, cells that are
    integers, strings or None): KeyError exactly when a critical column is
    missing from the frame; otherwise [False] exactly when some critical
    column holds a null, and [True] exactly when none does.  An empty list
    of critical columns passes. *)
Theorem validate_nulls_outcomes (h : heap) (df : loc) (critical_columns : list string) :
  wf_frame (deref h df) = true →
  let frame := deref h df in
  let has_null := ∃ c cells, c ∈ critical_columns
                             ∧ get_column frame c = Ok cells ∧ VNone ∈ cells in
  let all_present := ∀ c, c ∈ critical_columns → c ∈ columns frame in
  ((∃ e, fst (validate_nulls h df critical_columns) = Raise e)
   ↔ ¬ all_present)
  ∧ (∀ e, fst (validate_nulls h df critical_columns) = Raise e → e = KeyError)
  ∧ (fst (validate_nulls h df critical_columns) = Ok false
     ↔ all_present ∧ has_null)
  ∧ (fst (validate_nulls h df critical_columns) = Ok true
     ↔ all_present ∧ ¬ has_null)
  ∧ fst (validate_nulls h df []) = Ok true.
Proof.
  intros _ frame has_null all_present. subst frame has_null all_present.
  unfold validate_nulls.
  destruct (null_counts (deref h df) critical_columns) as [counts|e] eqn:Hcounts.
  - destruct (null_counts_ok _ _ _ Hcounts) as [Hall Hiff].
    assert ((0 < length (filter (λ cn : string * nat, (0 < cn.2)%nat) counts))%nat
            ↔ ∃ cn, cn ∈ counts ∧ (0 < snd cn)%nat) as Hissues.
    { split.
      - intros Hlen. destruct (filter _ counts) as [|cn l] eqn:Hf; simpl in Hlen; [lia|].
        assert (cn ∈ filter (λ cn : string * nat, (0 < cn.2)%nat) counts) as Hcn
          by (rewrite Hf; apply list_elem_of_here).
        apply list_elem_of_filter in Hcn as [? ?]. eauto.
      - intros (cn & Hin & Hpos).
        assert (cn ∈ filter (λ cn : string * nat, (0 < cn.2)%nat) counts) as Hcn
          by (by apply list_elem_of_filter).
        destruct (filter _ counts); [by apply elem_of_nil in Hcn | simpl; lia]. }
    destruct (0 <? length _)%nat eqn:Hlt; simpl.
    + apply Nat.ltb_lt, Hissues, Hiff in Hlt.
      split_and!; [| done | | | done].
      * split; [by intros [? ?] | by intros Hn; destruct Hn].
      * split; [done | done].
      * split; [done | by intros [_ Hn]; destruct Hn].
    + assert (¬ ∃ c cells, c ∈ critical_columns
                ∧ get_column (deref h df) c = Ok cells ∧ VNone ∈ cells) as Hno.
      { intros Hex. apply Hiff, Hissues, Nat.ltb_lt in Hex. congruence. }
      split_and!; [| done | | | done].
      * split; [by intros [? ?] | by intros Hn; destruct Hn].
      * split; [done | by intros [_ ?]].
      * split; [done | done].
  - apply null_counts_error in Hcounts as [-> (c & Hin & Hnot)]. simpl.
    split_and!; [| by intros e [= <-] | | | done].
    + split; [intros _ Hall; by apply Hnot, Hall | eauto].
    + split; [done | intros [Hall _]; by destruct (Hnot (Hall c Hin))].
    + split; [done | intros [Hall _]; by destruct (Hnot (Hall c Hin))].
Qed.

Lemma validate_nulls_outcomes_witness :
  let h : heap := {[ 0%nat := mkframe ["id"; "name"]
                                [[VInt 1; VStr "Ada"]; [VInt 2; VNone]] ]} in
  fst (validate_nulls h 0%nat ["name"]) = Ok false
  ∧ fst (validate_nulls h 0%nat ["id"]) = Ok true
  ∧ fst (validate_nulls h 0%nat []) = Ok true.
Proof.
  intros h.
  destruct (validate_nulls_outcomes h 0%nat ["name"] eq_refl)
    as (_ & _ & Hfalse & _ & Hempty).
  destruct (validate_nulls_outcomes h 0%nat ["id"] eq_refl)
    as (_ & _ & _ & Htrue & _).
  split_and!; [| | exact Hempty].
  - apply Hfalse. split.
    + intros c Hc. apply list_elem_of_singleton in Hc. subst c.
      apply list_elem_of_further, list_elem_of_here.
    + exists "name", [VStr "Ada"; VNone].
      split_and!; [apply list_elem_of_here | reflexivity
                  | apply list_elem_of_further, list_elem_of_here].
  - apply Htrue. split.
    + intros c Hc. apply list_elem_of_singleton in Hc. subst c.
      apply list_elem_of_here.
    + intros (c & cells & Hc & Hget & Hnone).
      apply list_elem_of_singleton in Hc. subst c.
      injection Hget as <-.
      apply elem_of_cons in Hnone as [Hnone | Hnone]; [discriminate|].
      apply elem_of_cons in Hnone as [Hnone | Hnone]; [discriminate|].
      by apply elem_of_nil in Hnone.
Defined.

End ValidatorVerdicts.

Section SchemaAndChecksum.
Import MigrationValidator.

(** X2. [validate_schema] passes exactly when the two schemas have the same
    column names; the declared types are never compared, so retyping the
    columns of either schema leaves the verdict, and the verdict is the
    same with source and target exchanged. *)
Theorem validate_schema_compares_names (h : heap)
    (source_schema target_schema : gmap string string) :
  (fst (validate_schema h source_schema target_schema) = Ok true
   ↔ ∀ c, is_Some (source_schema !! c) ↔ is_Some (target_schema !! c))
  ∧ (fst (validate_schema h source_schema target_schema) = Ok false
     ↔ ∃ c, ¬ (is_Some (source_schema !! c) ↔ is_Some (target_schema !! c)))
  ∧ (∀ retype_source retype_target : string → string,
       fst (validate_schema h (retype_source <$> source_schema)
              (retype_target <$> target_schema))
       = fst (validate_schema h source_schema target_schema))
  ∧ fst (validate_schema h target_schema source_schema)
    = fst (validate_schema h source_schema target_schema).
Proof.
  assert (dom source_schema = dom target_schema
          ↔ ∀ c, is_Some (source_schema !! c) ↔ is_Some (target_schema !! c))
    as Hdom.
  { rewrite set_eq. by setoid_rewrite elem_of_dom. }
  unfold validate_schema. split_and!.
  - case_bool_decide as Hne; simpl.
    + split; [done|]. intros Hall. by destruct Hne; apply Hdom.
    + split; [|done]. intros _. apply Hdom.
      by destruct (decide (dom source_schema = dom target_schema)).
  - case_bool_decide as Hne; simpl.
    + split; [|done]. intros _.
      destruct (set_choose_or_empty
                  ((dom source_schema ∖ dom target_schema)
                   ∪ (dom target_schema ∖ dom source_schema) : gset string))
        as [[c Hc] | Hempty].
      * exists c. rewrite <- !elem_of_dom.
        apply elem_of_union in Hc
          as [[? ?]%elem_of_difference | [? ?]%elem_of_difference]; tauto.
      * destruct Hne. apply set_eq. intros x.
        destruct (decide (x ∈ dom source_schema)),
                 (decide (x ∈ dom target_schema)); try tauto;
          exfalso; apply (not_elem_of_empty (C:=gset string) x);
          rewrite <- Hempty, elem_of_union, !elem_of_difference; tauto.
    + split; [done|]. intros [c Hc]. destruct Hc. apply Hdom.
      by destruct (decide (dom source_schema = dom target_schema)).
  - intros f g. by rewrite !dom_fmap_L.
  - repeat case_bool_decide; congruence.
Qed.

Lemma row_keys_missing p df key :
  key ∉ columns df → key ≠ "checksum" →
  row_keys (add_checksum p df) key = Raise KeyError.
Proof.
  intros Hnot Hkey. unfold row_keys, get_column.
  assert (index_of key (columns (add_checksum p df)) = None) as ->; [|done].
  apply index_of_None. rewrite add_checksum_columns.
  destruct (index_of "checksum" (columns df)); [done|].
  rewrite elem_of_app, list_elem_of_singleton. by intros [? | ?].
Qed.

(** X3. On two distinct frames the model covers, a key column, other than
    [checksum], that a frame lacks is no error: [validate_checksum] answers
    [False].  When the source lacks it, only the source frame has received
    its checksum column and the target frame is as it was; when only the
    target lacks it, both frames have received theirs. *)
Theorem validate_checksum_missing_key p (h : heap) source_df target_df key_column A B :
  h !! source_df = Some A → h !! target_df = Some B →
  wf_frame A = true → wf_frame B = true →
  source_df ≠ target_df → key_column ≠ "checksum" →
  (key_column ∉ columns A →
     validate_checksum p h source_df target_df key_column
     = (Ok false, <[source_df := add_checksum p A]> h))
  ∧ (key_column ∈ columns A → key_column ∉ columns B →
     validate_checksum p h source_df target_df key_column
     = (Ok false, <[target_df := add_checksum p B]>
                    (<[source_df := add_checksum p A]> h))).
Proof.
  intros HA HB HwA%wf_frame_widths _ Hne Hkey. split.
  - intros Hnot. unfold validate_checksum, checksum_diff, checksum_set.
    rewrite (deref_lookup h source_df A HA).
    by rewrite row_keys_missing.
  - intros Hin Hnot.
    unfold validate_checksum, checksum_diff, checksum_set.
    rewrite (deref_lookup h source_df A HA), row_keys_add by done. simpl.
    rewrite deref_insert_ne, (deref_lookup h target_df B HB) by done.
    by rewrite row_keys_missing.
Qed.

Lemma validate_checksum_missing_key_witness :
  let A := mkframe ["id"; "amount"] [[VInt 1; VInt 10]] in
  let B := mkframe ["amount"] [[VInt 10]] in
  validate_checksum process_seed0 {[ 0%nat := B; 1%nat := A ]} 0%nat 1%nat "id"
  = (Ok false, <[0%nat := add_checksum process_seed0 B]> {[ 0%nat := B; 1%nat := A ]})
  ∧ validate_checksum process_seed0 {[ 0%nat := A; 1%nat := B ]} 0%nat 1%nat "id"
    = (Ok false, <[1%nat := add_checksum process_seed0 B]>
                   (<[0%nat := add_checksum process_seed0 A]>
                      {[ 0%nat := A; 1%nat := B ]})).
Proof.
  intros A B. split.
  - refine (proj1 (validate_checksum_missing_key process_seed0
              {[ 0%nat := B; 1%nat := A ]} 0%nat 1%nat "id" B A
              eq_refl eq_refl eq_refl eq_refl _ _) _);
      [discriminate | discriminate |].
    apply (proj1 (bool_decide_eq_false _)). reflexivity.
  - refine (proj2 (validate_checksum_missing_key process_seed0
              {[ 0%nat := A; 1%nat := B ]} 0%nat 1%nat "id" A B
              eq_refl eq_refl eq_refl eq_refl _ _) _ _);
      [discriminate | discriminate | |].
    + apply list_elem_of_here.
    + apply (proj1 (bool_decide_eq_false _)). reflexivity.
Defined.

(** The key [checksum] is always found: the column is written before the
    keys are read, so two frames without that column are compared on their
    fingerprints alone. *)
Example validate_checksum_on_checksum_key :
  let A := mkframe ["id"; "amount"] [[VInt 1; VInt 10]] in
  validate_checksum process_seed0 {[ 0%nat := A; 1%nat := A ]} 0%nat 1%nat "checksum"
  = (Ok true, {[ 0%nat := add_checksum process_seed0 A;
                 1%nat := add_checksum process_seed0 A ]}).
Proof. vm_compute. reflexivity. Qed.

Lemma symmetric_difference_empty (a b : gset string) :
  size (symmetric_difference a b) = 0%nat ↔ a = b.
Proof.
  rewrite size_empty_iff. unfold symmetric_difference. split.
  - intros Hempty. apply set_eq. intros x.
    destruct (decide (x ∈ a)), (decide (x ∈ b)); try tauto; set_solver.
  - intros ->. set_solver.
Qed.

(** X4. For two distinct frames with the key column, [validate_checksum]
    passes exactly when the two frames have the same set of row keys: how
    often a row occurs is not seen.  In particular two frames with the same
    columns in which every row of one occurs in the other pass, whatever
    their row counts. *)
Theorem validate_checksum_compares_key_sets p (h : heap) source_df target_df
    key_column A B :
  source_df ≠ target_df → h !! source_df = Some A → h !! target_df = Some B →
  wf_frame A = true → wf_frame B = true →
  key_column ∈ columns A → key_column ∈ columns B → key_column ≠ "checksum" →
  (fst (validate_checksum p h source_df target_df key_column) = Ok true
   ↔ ∀ k, k ∈ (row_key p (columns A) key_column <$> rows A)
          ↔ k ∈ (row_key p (columns B) key_column <$> rows B))
  ∧ (columns B = columns A → (∀ r, r ∈ rows A ↔ r ∈ rows B) →
     fst (validate_checksum p h source_df target_df key_column) = Ok true).
Proof.
  intros Hne HA HB HwA HwB HkA HkB Hkey.
  pose proof (checksum_diff_distinct p h source_df target_df key_column A B
                Hne HA HB HwA HwB HkA HkB Hkey) as Hdiff.
  rewrite (validate_checksum_of_diff _ _ _ _ _ _ Hdiff).
  assert (∀ S T : gset string, Ok (Nat.eqb (size (symmetric_difference S T)) 0)
            = Ok true ↔ S = T) as Hverdict.
  { intros S T. rewrite <- symmetric_difference_empty. split.
    - intros [= Heq]. by apply Nat.eqb_eq.
    - intros Heq. f_equal. by apply Nat.eqb_eq. }
  rewrite Hverdict. split.
  - rewrite set_eq. by setoid_rewrite elem_of_list_to_set.
  - intros Hcols Hrows. apply set_eq. intros k.
    rewrite !elem_of_list_to_set, !list_elem_of_fmap, Hcols.
    by setoid_rewrite Hrows.
Qed.

Lemma validate_checksum_compares_key_sets_witness :
  let A := mkframe ["id"; "amount"] [[VInt 1; VInt 10]; [VInt 2; VInt 20]] in
  let B := mkframe ["id"; "amount"]
             [[VInt 2; VInt 20]; [VInt 1; VInt 10]; [VInt 2; VInt 20]] in
  fst (validate_checksum process_seed1 {[ 0%nat := A; 1%nat := B ]} 0%nat 1%nat "id")
  = Ok true.
Proof.
  intros A B.
  refine (proj2 (validate_checksum_compares_key_sets process_seed1
            {[ 0%nat := A; 1%nat := B ]} 0%nat 1%nat "id" A B
            _ eq_refl eq_refl eq_refl eq_refl _ _ _) eq_refl _);
    [discriminate | apply list_elem_of_here | apply list_elem_of_here
    | discriminate |].
  intros r. unfold A, B. simpl.
  rewrite !elem_of_cons, !elem_of_nil. tauto.
Defined.

(** X5. For two distinct frames with the key column, exchanging source and
    target does not change the verdict of [validate_checksum]. *)
Theorem validate_checksum_symmetric p (h : heap) source_df target_df key_column A B :
  source_df ≠ target_df → h !! source_df = Some A → h !! target_df = Some B →
  wf_frame A = true → wf_frame B = true →
  key_column ∈ columns A → key_column ∈ columns B → key_column ≠ "checksum" →
  fst (validate_checksum p h target_df source_df key_column)
  = fst (validate_checksum p h source_df target_df key_column).
Proof.
  intros Hne HA HB HwA HwB HkA HkB Hkey.
  rewrite (validate_checksum_of_diff _ _ _ _ _ _
             (checksum_diff_distinct p h source_df target_df key_column A B
                Hne HA HB HwA HwB HkA HkB Hkey)).
  rewrite (validate_checksum_of_diff _ _ _ _ _ _
             (checksum_diff_distinct p h target_df source_df key_column B A
                (not_eq_sym Hne) HB HA HwB HwA HkB HkA Hkey)).
  do 3 f_equal. unfold symmetric_difference. set_solver.
Qed.

Lemma validate_checksum_symmetric_witness :
  let A := mkframe ["id"; "amount"] [[VInt 1; VInt 10]; [VInt 2; VInt 20]] in
  let B := mkframe ["id"; "amount"] [[VInt 1; VInt 10]] in
  fst (validate_checksum process_seed1 {[ 0%nat := A; 1%nat := B ]} 1%nat 0%nat "id")
  = fst (validate_checksum process_seed1 {[ 0%nat := A; 1%nat := B ]} 0%nat 1%nat "id").
Proof.
  intros A B.
  apply (validate_checksum_symmetric process_seed1
           {[ 0%nat := A; 1%nat := B ]} 0%nat 1%nat "id" A B);
    try reflexivity; try discriminate; apply list_elem_of_here.
Defined.

End SchemaAndChecksum.

(** * Reading a watermark file that the pipeline did not write *)

Section WatermarkReads.
Import CloudMigrationPipeline.

Lemma dict_of_malformed items : ∀ m item,
  item ∈ items → length item ≠ 2%nat → dict_of m items = Raise ValueError.
Proof.
  induction items as [|a items IH]; intros m item Hin Hlen.
  - by apply elem_of_nil in Hin.
  - apply elem_of_cons in Hin as [-> | Hin].
    + destruct a as [|k [|v [|x l]]]; simpl in *; done.
    + destruct a as [|k [|v [|x l]]]; simpl; try done. by apply (IH _ item).
Qed.

Lemma dict_of_other_keys items : ∀ (m : gmap string string) table,
  Forall (λ item, ∃ k v, item = [k; v] ∧ k ≠ table) items →
  ∃ m', dict_of m items = Ok m' ∧ m' !! table = m !! table.
Proof.
  induction items as [|a items IH]; intros m table Hall.
  - by exists m.
  - inversion Hall as [|? ? (k & v & -> & Hk) Hrest]; subst. simpl.
    destruct (IH (<[k:=v]> m) table Hrest) as (m' & Hm' & Hlook).
    exists m'. split; [done|]. by rewrite Hlook, lookup_insert_ne.
Qed.

(** X6. One line of the watermark file that does not split on ['='] into
    exactly two parts (a blank line, a line without ['='], a line with two)
    makes [get_watermark] raise ValueError for every table, whatever the
    other lines hold. *)
Theorem get_watermark_malformed_line st content line table :
  watermark_file st = Some content →
  line ∈ readlines content →
  length (parse_line line) ≠ 2%nat →
  get_watermark table st = (Raise ValueError, st).
Proof.
  intros Hfile Hin Hlen. unfold get_watermark, read_watermark. rewrite Hfile.
  change (λ line, split "=" (strip line)) with parse_line.
  rewrite (dict_of_malformed _ ∅ (parse_line line)); [done | | done].
  apply list_elem_of_In, in_map. by apply list_elem_of_In.
Qed.

Lemma get_watermark_malformed_line_witness :
  let st := with_file ("fact_sales=2024-01-15T10:30:00" +:+ newline +:+ newline) in
  get_watermark "fact_sales" st = (Raise ValueError, st).
Proof.
  intros st.
  apply (get_watermark_malformed_line st
           ("fact_sales=2024-01-15T10:30:00" +:+ newline +:+ newline) newline);
    [reflexivity | | discriminate].
  vm_compute. apply list_elem_of_further, list_elem_of_here.
Defined.

(** X7. A table without a line of its own reads as 1900-01-01: when there
    is no watermark file, and when every line of the file splits in two and
    none carries the table's name, whatever values the lines of the other
    tables hold. *)
Theorem get_watermark_unknown_table st table :
  (∀ content, watermark_file st = Some content →
     ∀ line, line ∈ readlines content →
       ∃ k v, parse_line line = [k; v] ∧ k ≠ table) →
  get_watermark table st = (Ok (mkdatetime 1900 1 1 0 0 0 0), st).
Proof.
  intros Hlines. unfold get_watermark, read_watermark.
  destruct (watermark_file st) as [content|]; [|done].
  specialize (Hlines content eq_refl).
  change (λ line, split "=" (strip line)) with parse_line.
  destruct (dict_of_other_keys (map parse_line (readlines content)) ∅ table)
    as (m' & -> & Hlook).
  { apply Forall_forall. intros item [line [<- Hin]]%list_elem_of_In%in_map_iff.
    by apply Hlines, list_elem_of_In. }
  simpl. by rewrite Hlook, lookup_empty.
Qed.

Lemma get_watermark_unknown_table_witness :
  let st := with_file ("fact_inventory=not a timestamp" +:+ newline) in
  get_watermark "fact_sales" st = (Ok (mkdatetime 1900 1 1 0 0 0 0), st).
Proof.
  intros st. apply (get_watermark_unknown_table st "fact_sales").
  intros content [= <-] line Hin. vm_compute in Hin.
  apply elem_of_cons in Hin as [-> | Hin]; [|by apply elem_of_nil in Hin].
  exists "fact_inventory", "not a timestamp". split; [reflexivity | discriminate].
Defined.

End WatermarkReads.

(** * Logs whose values need not be timestamps *)

Section LogLines.
Import CloudMigrationPipeline.

Lemma render_lines_app ls1 ls2 :
  render_lines (ls1 ++ ls2)%list = render_lines ls1 +:+ render_lines ls2.
Proof.
  induction ls1 as [|l ls1 IH]; simpl; [done|].
  by rewrite IH, append_assoc.
Qed.

Lemma lines_render_lines ls tail :
  forallb wf_line ls = true →
  map parse_line (readlines (render_lines ls +:+ tail))
  = (map (λ l, [fst l; snd l]) ls ++ map parse_line (readlines tail))%list.
Proof.
  induction ls as [|[t v] ls IH]; cbn [render_lines forallb map app]; [done|].
  intros [[Ht Hv]%andb_true_iff Hls]%andb_true_iff. cbn [fst snd] in *.
  rewrite (append_assoc (line_of (t, v))).
  unfold line_of. cbn [fst snd].
  rewrite readlines_line by done.
  cbn [map]. rewrite parse_line_pair by done.
  by rewrite IH.
Qed.

Lemma dict_of_lines ls : ∀ m rest,
  dict_of m (map (λ l, [fst l; snd l]) ls ++ rest)%list
  = dict_of (fold_left insert_line ls m) rest.
Proof.
  induction ls as [|l ls IH]; intros m rest; simpl; [done|].
  by rewrite IH.
Qed.

Lemma read_lines_state file ls t :
  lines_state file ls → forallb wf_line ls = true →
  read_watermark file t
  = fromisoformat (default "1900-01-01" (fold_left insert_line ls ∅ !! t)).
Proof.
  intros [-> | [-> ->]] Hls; [|done].
  unfold read_watermark.
  change (λ line, split "=" (strip line)) with parse_line.
  rewrite <- (append_nil_r (render_lines ls)), lines_render_lines by done.
  cbn [readlines map]. by rewrite dict_of_lines.
Qed.

(** The watermark file after one run: as it was, opened (and so created),
    or longer by one line for the table of the run. *)
Lemma migrate_table_file_shape w cfg t incremental st :
  let file' := watermark_file (snd (migrate_table w cfg t incremental st)) in
  file' = watermark_file st
  ∨ file' = Some (default "" (watermark_file st))
  ∨ ∃ v iso, scalar_isoformat v = Ok iso
      ∧ file' = Some (default "" (watermark_file st)
                      +:+ t +:+ "=" +:+ iso +:+ newline).
Proof.
  destruct (migrate_table_cases w cfg t incremental st)
    as [? | (_ & _ & wm & df & df' & c & v & _ & _ & _ & _ & _ & _ & _ & _ & _ & Hfile)];
    [by left|].
  right. simpl. rewrite Hfile. unfold append_watermark.
  destruct (scalar_isoformat v) as [iso|] eqn:E; simpl; [right; eauto | by left].
Qed.

Lemma scalar_isoformat_chars v iso :
  scalar_isoformat v = Ok iso → all_chars iso_char iso = true.
Proof.
  destruct v; simpl; intros [= <-]; [apply iso_char_isoformat | done].
Qed.

Lemma exec_run_lines (r : run) st ls :
  wf_table r.1.2 = true →
  lines_state (watermark_file st) ls → forallb wf_line ls = true →
  ∃ ls', lines_state (watermark_file (exec_run st r)) ls'
    ∧ forallb wf_line ls' = true
    ∧ (ls' = ls ∨ ∃ v, ls' = (ls ++ [(r.1.2, v)])%list).
Proof.
  destruct r as [[[w cfg] t] incremental]. unfold exec_run. simpl.
  intros Ht Hlog Hls.
  destruct (migrate_table_file_shape w cfg t incremental st)
    as [-> | [-> | (v & iso & Hiso & ->)]].
  - exists ls. auto.
  - exists ls. split_and!; [|done|by left].
    destruct Hlog as [-> | [-> ->]]; by left.
  - exists (ls ++ [(t, iso)])%list. split_and!; [| |eauto].
    + left. f_equal. rewrite render_lines_app. simpl. unfold line_of. simpl.
      rewrite append_nil_r.
      destruct Hlog as [-> | [-> ->]]; simpl; by rewrite ?append_assoc.
    + rewrite forallb_app. simpl. unfold wf_line at 2. simpl.
      by rewrite Hls, Ht, (scalar_isoformat_chars _ _ Hiso).
Qed.

(** X8. The watermark file is an append-only log for the pipeline.  One run
    of [migrate_table] leaves the file as it was, or creates it empty, or
    appends exactly one line for its own table; and after any sequence of
    runs the old content is a prefix of the new, and a file that existed
    still exists. *)
Theorem watermark_log_append_only :
  (∀ w cfg table incremental st,
     let file' := watermark_file (snd (migrate_table w cfg table incremental st)) in
     file' = watermark_file st
     ∨ file' = Some (default "" (watermark_file st))
     ∨ ∃ v iso, scalar_isoformat v = Ok iso
         ∧ file' = Some (default "" (watermark_file st)
                         +:+ table +:+ "=" +:+ iso +:+ newline))
  ∧ (∀ (runs : list run) st,
       ∃ suffix,
         default "" (watermark_file (exec_runs st runs))
         = default "" (watermark_file st) +:+ suffix
         ∧ (is_Some (watermark_file st)
            → is_Some (watermark_file (exec_runs st runs)))).
Proof.
  split; [apply migrate_table_file_shape|].
  intros runs. induction runs as [|[[[w cfg] t] incremental] runs IH]; intros st.
  - exists "". by rewrite append_nil_r.
  - simpl. destruct (IH (exec_run st (w, cfg, t, incremental))) as (suffix & Heq & Hsome).
    unfold exec_run in *. simpl in *.
    destruct (migrate_table_file_shape w cfg t incremental st)
      as [Hf | [Hf | (v & iso & Hiso & Hf)]]; simpl in Hf; rewrite Hf in *.
    + eauto.
    + exists suffix. split; [done|]. intros _. by apply Hsome.
    + exists (t +:+ "=" +:+ iso +:+ newline +:+ suffix). split.
      * rewrite Heq. simpl. rewrite !append_assoc. simpl.
        by rewrite !append_assoc.
      * intros _. by apply Hsome.
Qed.

Lemma full_run_keeps_file w cfg t st :
  watermark_file (snd (migrate_table w cfg t false st)) = watermark_file st.
Proof. by destruct (migrate_table_cases w cfg t false st) as [? | (_ & ? & _)]. Qed.

(** Runs that are full loads or for other tables keep the file a log of
    well-formed lines and add no line for [table]. *)
Lemma exec_runs_lines (runs : list run) table : ∀ st ls,
  lines_state (watermark_file st) ls →
  forallb wf_line ls = true →
  Forall (λ r : run, r.2 = false ∨ (wf_table r.1.2 = true ∧ r.1.2 ≠ table)) runs →
  ∃ ls', lines_state (watermark_file (exec_runs st runs)) ls'
    ∧ forallb wf_line ls' = true
    ∧ fold_left insert_line ls' ∅ !! table = fold_left insert_line ls ∅ !! table.
Proof.
  intros st ls Hlog Hls Hruns. revert st ls Hlog Hls.
  induction Hruns as [|r runs Hr _ IH]; intros st ls Hlog Hls.
  - by exists ls.
  - simpl. destruct Hr as [Hfull | [Ht Hne]].
    + apply IH; [|done]. destruct r as [[[w cfg] t] incremental].
      simpl in Hfull. subst. unfold exec_run. simpl.
      by rewrite full_run_keeps_file.
    + destruct (exec_run_lines r st ls Ht Hlog Hls) as (ls1 & Hlog1 & Hls1 & Hshape).
      destruct (IH _ _ Hlog1 Hls1) as (ls2 & Hlog2 & Hls2 & Hsame2).
      exists ls2. split_and!; [done..|].
      rewrite Hsame2. destruct Hshape as [-> | [v ->]]; [done|].
      rewrite fold_left_app. simpl. unfold insert_line at 1. simpl.
      by rewrite lookup_insert_ne.
Qed.

(** X9. Full loads and runs for other tables do not change what
    [get_watermark] returns for a table: from a file that is absent or made
    of well-formed lines, after any sequence of runs, successful or not,
    each of which is a full load or an incremental run of another table
    whose name has no ['='], no line break and no leading whitespace,
    [get_watermark table] returns what it returned before. *)
Theorem other_tables_keep_watermark (runs : list run) st ls table :
  lines_state (watermark_file st) ls →
  forallb wf_line ls = true →
  Forall (λ r : run, r.2 = false ∨ (wf_table r.1.2 = true ∧ r.1.2 ≠ table)) runs →
  fst (get_watermark table (exec_runs st runs)) = fst (get_watermark table st).
Proof.
  intros Hlog Hls Hruns.
  destruct (exec_runs_lines runs table st ls Hlog Hls Hruns)
    as (ls' & Hlog' & Hls' & Hsame).
  unfold get_watermark. simpl.
  rewrite (read_lines_state _ ls' table Hlog' Hls'), Hsame.
  symmetry. by apply read_lines_state.
Qed.

Lemma other_tables_keep_watermark_witness :
  let w := demo_world (select_rows [(1, mkdatetime 2024 1 15 10 30 0 0);
                                    (2, mkdatetime 2024 2 1 8 0 0 0)]) in
  let st := with_file (render_lines [("fact_inventory", "2024-03-01T00:00:00")]) in
  fst (get_watermark "fact_inventory"
         (exec_runs st [(w, demo_config, "fact_sales", true);
                        (w, demo_config, "fact_inventory", false)]))
  = fst (get_watermark "fact_inventory" st).
Proof.
  intros w st.
  apply (other_tables_keep_watermark _ st [("fact_inventory", "2024-03-01T00:00:00")]).
  - left. reflexivity.
  - reflexivity.
  - apply List.Forall_cons; [right; split; [reflexivity | discriminate]|].
    apply List.Forall_cons; [left; reflexivity | apply List.Forall_nil].
Defined.

End LogLines.

(** * The ways a run can end *)

Section RunOutcomes.
Import CloudMigrationPipeline.

Ltac run_step :=
  cbn -[append_watermark read_watermark transform_frame get_column series_max
        parquet_path].

Ltac run_migrate :=
  unfold migrate_table, connect_onprem_sql, extract_data, transform_for_synapse,
    load_to_adls, update_watermark, get_watermark, lookup_config,
    bind, ret, raise, lift, log, try_except, try_finally;
  run_step.

Ltac run_with H := rewrite H; run_step.

Ltac not_closed :=
  rewrite ?not_elem_of_cons; repeat split; try discriminate; apply not_elem_of_nil.

(** X10. A full load never reads the watermark file: with any other
    content of the file, or without the file, the run has the same result,
    writes the same files and logs the same records, and the file is as it
    was. *)
Theorem full_load_ignores_watermark_file w cfg table st file :
  migrate_table w cfg table false (mkstate file (lake st) (trace st))
  = (fst (migrate_table w cfg table false st),
     mkstate file (lake (snd (migrate_table w cfg table false st)))
             (trace (snd (migrate_table w cfg table false st)))).
Proof.
  destruct st as [file0 lake0 trace0].
  run_migrate.
  repeat (case_match; simplify_eq/=; try reflexivity; try congruence).
Qed.

(** X11. A watermark file that [get_watermark] cannot read stops every
    incremental run at the extraction: the exception of the read is raised
    to the caller after the connection was opened and before the source is
    queried; nothing is loaded, the file is as it was, and the connection
    is closed. *)
Theorem unreadable_log_fails_incremental_run w cfg table st e :
  connects w cfg = true →
  read_watermark (watermark_file st) table = Raise e →
  migrate_table w cfg table true st
  = (Raise e,
     mkstate (watermark_file st) (lake st)
       (trace st ++ [LogStarting table; connected_event cfg;
                     LogMigrationFailed table; ConnClosed])).
Proof.
  intros (s & d & u & p & Hs & Hd & Hu & Hp & Hc)%connecting_ok Hwm.
  unfold connected_event.
  run_migrate. rewrite Hs, Hd, Hu, Hp. run_with Hc. run_with Hwm.
  by rewrite <- !app_assoc.
Qed.

Lemma unreadable_log_fails_incremental_run_witness :
  let w := demo_world (select_rows [(1, mkdatetime 2024 1 15 10 30 0 0)]) in
  let st := with_file ("fact_inventory=2024-03-01T00:00:00" +:+ newline +:+ newline) in
  migrate_table w demo_config "fact_sales" true st
  = (Raise ValueError,
     mkstate (watermark_file st) []
       [LogStarting "fact_sales"; connected_event demo_config;
        LogMigrationFailed "fact_sales"; ConnClosed]).
Proof.
  intros w st.
  exact (unreadable_log_fails_incremental_run w demo_config "fact_sales" st
           ValueError eq_refl eq_refl).
Defined.

(** X12. Once the connection is open it is closed exactly once, as the last
    action of the run, however the run ends. *)
Theorem connection_closed_exactly_once w cfg table incremental st :
  connects w cfg = true →
  ∃ steps,
    trace (snd (migrate_table w cfg table incremental st))
    = (trace st ++ [LogStarting table; connected_event cfg]
       ++ steps ++ [ConnClosed])%list
    ∧ ConnClosed ∉ steps.
Proof.
  intros (s & d & u & p & Hs & Hd & Hu & Hp & Hc)%connecting_ok.
  unfold connected_event.
  run_migrate. rewrite Hs, Hd, Hu, Hp. run_with Hc.
  repeat (case_match; simplify_eq/=).
  all: rewrite <- ?app_assoc; simpl.
  all: first
    [ by (exists []; split; [reflexivity | not_closed])
    | by (eexists [_]; split; [reflexivity | not_closed])
    | by (eexists [_; _]; split; [reflexivity | not_closed])
    | by (eexists [_; _; _]; split; [reflexivity | not_closed])
    | by (eexists [_; _; _; _]; split; [reflexivity | not_closed])
    | by (eexists [_; _; _; _; _]; split; [reflexivity | not_closed])
    | by (eexists [_; _; _; _; _; _]; split; [reflexivity | not_closed])
    | by (eexists [_; _; _; _; _; _; _]; split; [reflexivity | not_closed])
    | by (eexists [_; _; _; _; _; _; _; _]; split; [reflexivity | not_closed]) ].
Qed.

Lemma connection_closed_exactly_once_witness :
  let w := demo_world (select_rows [(1, mkdatetime 2024 1 15 10 30 0 0)]) in
  ∃ steps,
    trace (snd (migrate_table w demo_config "fact_sales" true fresh_state))
    = ([] ++ [LogStarting "fact_sales"; connected_event demo_config]
       ++ steps ++ [ConnClosed])%list
    ∧ ConnClosed ∉ steps.
Proof.
  intros w.
  exact (connection_closed_exactly_once w demo_config "fact_sales" true fresh_state
           eq_refl).
Defined.

(** X13. Without a connection nothing is extracted, loaded or closed.  A
    configuration that lacks one of the four keys raises KeyError before the
    driver is called; a connection the driver refuses raises the driver's
    exception, which is logged by [connect_onprem_sql] and again by
    [migrate_table]. *)
Theorem migrate_table_without_connection w cfg table incremental st :
  (∀ key, key ∈ config_keys → cfg !! key = None →
     migrate_table w cfg table incremental st
     = (Raise KeyError,
        mkstate (watermark_file st) (lake st)
          (trace st ++ [LogStarting table; LogMigrationFailed table])))
  ∧ (∀ s d u p e,
       cfg !! "server" = Some s → cfg !! "database" = Some d →
       cfg !! "username" = Some u → cfg !! "password" = Some p →
       connect w s d u p = Raise e →
       migrate_table w cfg table incremental st
       = (Raise e,
          mkstate (watermark_file st) (lake st)
            (trace st ++ [LogStarting table; LogConnectFailed;
                          LogMigrationFailed table]))).
Proof.
  split.
  - intros key Hkey Hnone. unfold config_keys in Hkey.
    repeat (apply elem_of_cons in Hkey as [-> | Hkey]);
      [.. | by apply elem_of_nil in Hkey].
    all: run_migrate.
    all: repeat (rewrite ?Hnone; run_step; try case_match; simplify_eq/=).
    all: by rewrite <- ?app_assoc.
  - intros s d u p e Hs Hd Hu Hp Hc.
    run_migrate. rewrite Hs, Hd, Hu, Hp. run_with Hc.
    by rewrite <- !app_assoc.
Qed.

Lemma migrate_table_without_connection_witness :
  let w := demo_world (select_rows [(1, mkdatetime 2024 1 15 10 30 0 0)]) in
  let refused := mkworld (λ _ _ _ _, Raise (ExternalError "login failed"))
                   (read_sql w) (to_parquet w) demo_now demo_now demo_now true
                   (to_datetime w) (object_max w) in
  migrate_table w (delete "password" demo_config) "fact_sales" true fresh_state
  = (Raise KeyError,
     mkstate None [] [LogStarting "fact_sales"; LogMigrationFailed "fact_sales"])
  ∧ migrate_table refused demo_config "fact_sales" true fresh_state
    = (Raise (ExternalError "login failed"),
       mkstate None []
         [LogStarting "fact_sales"; LogConnectFailed;
          LogMigrationFailed "fact_sales"]).
Proof.
  intros w refused. split.
  - refine (proj1 (migrate_table_without_connection w
              (delete "password" demo_config) "fact_sales" true fresh_state)
              "password" _ eq_refl).
    do 3 apply list_elem_of_further. apply list_elem_of_here.
  - exact (proj2 (migrate_table_without_connection refused demo_config
             "fact_sales" true fresh_state)
             _ _ _ _ _ eq_refl eq_refl eq_refl eq_refl eq_refl).
Defined.

(** X14. A run writes at most one file: the lake is as it was, or has
    gained, at the path of the table in the bronze layer, the transformed
    batch of a non-empty extraction that the storage accepted. *)
Theorem migrate_table_writes_at_most_one_file w cfg table incremental st :
  let st' := snd (migrate_table w cfg table incremental st) in
  lake st' = lake st
  ∨ ∃ df df',
      extraction w (watermark_file st) table incremental = Ok df
      ∧ nrows df ≠ 0%nat
      ∧ transform_frame w df = Ok df'
      ∧ to_parquet w (bronze_path w table) df' = Ok tt
      ∧ lake st' = (lake st ++ [(bronze_path w table, df')])%list.
Proof.
  unfold extraction, bronze_path.
  run_migrate.
  repeat (case_match; simplify_eq/=; try (left; reflexivity)).
  all: right; repeat match goal with u : unit |- _ => destruct u end.
  all: eexists _, _; split_and!; try eassumption; try done.
  all: try (by apply Nat.eqb_neq).
Qed.

Lemma read_watermark_opened file t :
  read_watermark (Some (default "" file)) t = read_watermark file t.
Proof. by destruct file. Qed.

(** X22. A change-tracking column of integers never advances the watermark:
    the maximum of the column has no [isoformat], [update_watermark] logs
    the error and drops it, and the run completes normally with its batch
    loaded.  The file is opened (created empty when it did not exist) and
    nothing is written, so the next incremental run starts from the same
    watermark and extracts the same rows again. *)
Theorem integer_lastmodified_never_advances w cfg table st watermark df df' cells :
  connects w cfg = true →
  read_watermark (watermark_file st) table = Ok watermark →
  read_sql w table (Some watermark) = Ok df →
  nrows df ≠ 0%nat →
  transform_frame w df = Ok df' →
  to_parquet w (bronze_path w table) df' = Ok tt →
  get_column df' "lastmodified" = Ok (ColInt cells) →
  let file' := if watermark_writable w then Some (default "" (watermark_file st))
               else watermark_file st in
  migrate_table w cfg table true st
  = (Ok tt,
     mkstate file' (lake st ++ [(bronze_path w table, df')])
       (trace st ++ [LogStarting table; connected_event cfg;
                     LogIncremental table watermark;
                     LogExtracted (nrows df) table;
                     LogTransformed (nrows df') (length (cols df'));
                     LogLoaded (nrows df') (bronze_path w table);
                     LogWatermarkFailed;
                     LogCompleted table (nrows df'); ConnClosed]))
  ∧ ∀ t, read_watermark file' t = read_watermark (watermark_file st) t.
Proof.
  intros (s & d & u & p & Hs & Hd & Hu & Hp & Hc)%connecting_ok
    Hwm Hsql Hrows Htr Hload Hcol file'.
  assert ("lastmodified" ∈ columns df') as Hin by (apply get_column_elem; eauto).
  split.
  - unfold connected_event, bronze_path in *. subst file'.
    run_migrate. rewrite Hs, Hd, Hu, Hp. run_with Hc.
    run_with Hwm. run_with Hsql.
    apply Nat.eqb_neq in Hrows. run_with Hrows.
    run_with Htr. run_with Hload.
    rewrite bool_decide_true by done. run_step.
    run_with Hcol. unfold series_max, append_watermark.
    destruct (max_int cells); destruct (watermark_writable w); simpl;
      by rewrite <- !app_assoc.
  - intros t. subst file'.
    destruct (watermark_writable w); [apply read_watermark_opened | done].
Qed.

Lemma integer_lastmodified_never_advances_witness :
  let w := demo_world (λ _, Ok (mkframe 2 [("Id", ColInt [1; 2]);
                                           ("LastModified", ColInt [7; 9])])) in
  ∃ df',
    migrate_table w demo_config "fact_sales" true fresh_state
    = (Ok tt,
       mkstate (Some "") [(bronze_path w "fact_sales", df')]
         [LogStarting "fact_sales"; connected_event demo_config;
          LogIncremental "fact_sales" sentinel;
          LogExtracted 2 "fact_sales";
          LogTransformed 2 5;
          LogLoaded 2 (bronze_path w "fact_sales");
          LogWatermarkFailed;
          LogCompleted "fact_sales" 2; ConnClosed]).
Proof.
  intros w. eexists.
  exact (proj1 (integer_lastmodified_never_advances w demo_config "fact_sales"
                  fresh_state sentinel
                  (mkframe 2 [("Id", ColInt [1; 2]); ("LastModified", ColInt [7; 9])])
                  _ [7; 9] eq_refl eq_refl eq_refl (λ H, Nat.neq_succ_0 _ H) eq_refl eq_refl eq_refl)).
Defined.






End RunOutcomes.

(** * The Transformer *)

Section Transformer.
Import CloudMigrationPipeline.

Lemma count_label_cons name a labels :
  count_label name (a :: labels)
  = ((if bool_decide (a = name) then 1 else 0) + count_label name labels)%nat.
Proof.
  unfold count_label. rewrite filter_cons.
  case_decide; case_bool_decide; simpl; congruence.
Qed.

Lemma count_label_zero name labels :
  name ∉ labels → count_label name labels = 0%nat.
Proof.
  induction labels as [|a labels IH]; [done|].
  rewrite not_elem_of_cons, count_label_cons. intros [Hne Hnot].
  rewrite bool_decide_false by congruence. by rewrite IH.
Qed.

Lemma count_label_pos name labels :
  name ∈ labels → (0 < count_label name labels)%nat.
Proof.
  induction labels as [|a labels IH]; [by intros ?%elem_of_nil|].
  rewrite count_label_cons. intros [-> | Hin]%elem_of_cons.
  - rewrite bool_decide_true by done. lia.
  - specialize (IH Hin). lia.
Qed.

Lemma NoDup_count labels :
  NoDup labels ↔ ∀ x, x ∈ labels → (count_label x labels ≤ 1)%nat.
Proof.
  induction labels as [|a labels IH].
  - split; [by intros _ x ?%elem_of_nil | intros; constructor].
  - rewrite NoDup_cons, IH. split.
    + intros [Hnot Hall] x Hin. rewrite count_label_cons. case_bool_decide; subst.
      * rewrite count_label_zero by done. lia.
      * apply elem_of_cons in Hin as [-> | Hin]; [done|].
        specialize (Hall x Hin). lia.
    + intros Hall. split.
      * intros Hin. pose proof (Hall a (list_elem_of_here _ _)) as Ha.
        rewrite count_label_cons, bool_decide_true in Ha by done.
        pose proof (count_label_pos a labels Hin). lia.
      * intros x Hin. pose proof (Hall x (list_elem_of_further _ _ _ Hin)) as Hx.
        rewrite count_label_cons in Hx. lia.
Qed.

Lemma coerce_columns_ok w labels : ∀ df,
  (∃ df', coerce_columns w labels df = Ok df')
  ↔ ∀ x, x ∈ labels → (count_label x (columns df) ≤ 1)%nat.
Proof.
  induction labels as [|col labels IH]; intros df; simpl.
  - split; [by intros _ x ?%elem_of_nil | eauto].
  - destruct (1 <? count_label col (columns df))%nat eqn:Hcount.
    + apply Nat.ltb_lt in Hcount. split; [by intros [? ?]|].
      intros Hall. specialize (Hall col (list_elem_of_here _ _)). lia.
    + apply Nat.ltb_ge in Hcount. rewrite IH, map_column_columns. split.
      * intros Hall x [-> | Hin]%elem_of_cons; auto.
      * intros Hall x Hin. by apply Hall, list_elem_of_further.
Qed.

Lemma coerce_columns_error w labels : ∀ df e,
  coerce_columns w labels df = Raise e → e = AttributeError ∨ e = ValueError.
Proof.
  induction labels as [|col labels IH]; intros df e; simpl; [done|].
  case_match; [|apply IH]. case_bool_decide; intros [= <-]; auto.
Qed.

Lemma normalized_columns df :
  columns (mkframe (nrows df) (map (λ nc, (normalize (fst nc), snd nc)) (cols df)))
  = map normalize (columns df).
Proof. unfold columns. simpl. by rewrite !map_map. Qed.

(** X15. The Transformer fails exactly when two labels of the batch become
    the same label once lower-cased, with spaces replaced and other
    punctuation removed; the exception is then an AttributeError (a
    ValueError when the label is [dtype]), and no other failure exists. *)
Theorem transform_frame_label_collision w df :
  ((∃ df', transform_frame w df = Ok df') ↔ NoDup (map normalize (columns df)))
  ∧ (∀ e, transform_frame w df = Raise e → e = AttributeError ∨ e = ValueError).
Proof.
  unfold transform_frame. cbv zeta.
  split.
  - rewrite <- normalized_columns, NoDup_count, <- (coerce_columns_ok w). split.
    + intros [df' Hok]. destruct (coerce_columns w _ _) as [df1|]; [eauto | done].
    + intros [df1 ->]. simpl. eauto.
  - intros e. destruct (coerce_columns _ _ _) as [df1|e'] eqn:Hco; simpl; [done|].
    intros [= <-]. by eapply coerce_columns_error.
Qed.

Example order_id_labels_collide :
  transform_frame (demo_world (λ _, Raise KeyError))
    (mkframe 1 [("Order ID", ColInt [1]); ("order_id", ColInt [1])])
  = Raise AttributeError.
Proof. reflexivity. Qed.








Lemma find_app {A} (f : A → bool) l1 l2 :
  find f (l1 ++ l2) = match find f l1 with Some x => Some x | None => find f l2 end.
Proof. induction l1 as [|a l1 IH]; simpl; [done|]. by destruct (f a). Qed.

Lemma get_column_missing df name : name ∉ columns df → get_column df name = Raise KeyError.
Proof.
  intros Hnot. destruct (get_column df name) as [c|e] eqn:Hget.
  - destruct Hnot. apply get_column_elem. eauto.
  - revert Hget. unfold get_column. by destruct (find _ _); intros [= <-].
Qed.

Lemma get_column_set_eq df name c : get_column (set_column df name c) name = Ok c.
Proof.
  unfold set_column. case_bool_decide as Hin.
  - unfold get_column, map_column, columns in *. simpl.
    induction (cols df) as [|[n v] l IH]; simpl in *; [by apply elem_of_nil in Hin|].
    destruct (decide (n = name)) as [-> | Hn].
    + rewrite (bool_decide_true (name = name)) by done. simpl.
      by rewrite bool_decide_true.
    + rewrite (bool_decide_false (n = name)) by done. simpl.
      rewrite bool_decide_false by done. apply IH.
      apply elem_of_cons in Hin as [-> | Hin]; done.
  - pose proof (get_column_missing df name Hin) as Hget.
    unfold get_column in *. simpl. rewrite find_app.
    destruct (find _ (cols df)); [done|]. simpl. by rewrite bool_decide_true.
Qed.

Lemma get_column_set_ne df name c other :
  other ≠ name → get_column (set_column df name c) other = get_column df other.
Proof.
  intros Hne. unfold set_column. case_bool_decide as Hin.
  - unfold get_column, map_column. simpl. clear Hin.
    induction (cols df) as [|[n v] l IH]; simpl; [done|].
    destruct (decide (n = name)) as [-> | Hn].
    + rewrite (bool_decide_true (name = name)) by done. simpl.
      rewrite !(bool_decide_false (name = other)) by done. apply IH.
    + rewrite (bool_decide_false (n = name)) by done. simpl.
      case_bool_decide; [done | apply IH].
  - unfold get_column. simpl. rewrite find_app.
    destruct (find _ (cols df)); [done|]. simpl.
    by rewrite bool_decide_false.
Qed.

(** X17. The lineage columns of a transformed batch: the row count is that
    of the batch, and the three columns hold, in every row, the time of the
    ingestion, the name of the source system and the batch id; a column of
    the batch whose label is that of a lineage column is overwritten. *)
Theorem transform_frame_lineage w df df' :
  transform_frame w df = Ok df' →
  nrows df' = nrows df
  ∧ get_column df' "_ingestion_timestamp"
    = Ok (ColTime (replicate (nrows df) (Some (utcnow_ingestion w))))
  ∧ get_column df' "_source_system"
    = Ok (ColObj (replicate (nrows df) (SStr "legacy_sql_server")))
  ∧ get_column df' "_migration_batch_id"
    = Ok (ColObj (replicate (nrows df)
                    (SStr (strftime_compact (utcnow_batch w))))).
Proof.
  intros Htr. split; [by eapply transform_frame_nrows|].
  revert Htr. unfold transform_frame. cbv zeta.
  destruct (coerce_columns _ _ _) as [df1|] eqn:Hco; simpl; [|done].
  intros [= <-]. apply coerce_columns_nrows in Hco. simpl in Hco.
  split_and!.
  - rewrite !get_column_set_ne by discriminate.
    by rewrite get_column_set_eq, Hco.
  - rewrite get_column_set_ne by discriminate.
    by rewrite get_column_set_eq, set_column_nrows, Hco.
  - by rewrite get_column_set_eq, !set_column_nrows, Hco.
Qed.

Lemma transform_frame_lineage_witness :
  let w := demo_world (λ _, Raise KeyError) in
  let df := mkframe 2 [("Id", ColInt [1; 2]);
                       ("_Source_System", ColObj [SStr "crm"; SStr "erp"])] in
  ∃ df',
    transform_frame w df = Ok df'
    ∧ nrows df' = 2%nat
    ∧ get_column df' "_ingestion_timestamp"
      = Ok (ColTime (replicate 2 (Some demo_now)))
    ∧ get_column df' "_source_system"
      = Ok (ColObj (replicate 2 (SStr "legacy_sql_server")))
    ∧ get_column df' "_migration_batch_id"
      = Ok (ColObj (replicate 2 (SStr "20240630120000"))).
Proof.
  intros w df. eexists. split; [reflexivity|].
  exact (transform_frame_lineage w df _ eq_refl).
Defined.






End Transformer.

(** * The path of a loaded file *)

Section Paths.
Import CloudMigrationPipeline.





End Paths.

(** * The script *)

Section Script.
Import CloudMigrationPipeline MigrationScript.

Lemma run_all_outcome rs : ∀ st,
  (run_all rs st = (Ok tt, exec_runs st rs)
   ∧ ∀ k r, rs !! k = Some r →
       fst (run_call r (exec_runs st (take k rs))) = Ok tt)
  ∨ ∃ k r e,
      rs !! k = Some r
      ∧ (∀ j r', (j < k)%nat → rs !! j = Some r' →
           fst (run_call r' (exec_runs st (take j rs))) = Ok tt)
      ∧ fst (run_call r (exec_runs st (take k rs))) = Raise e
      ∧ run_all rs st = (Raise e, exec_runs st (take (S k) rs)).
Proof.
  induction rs as [|r rs IH]; intros st.
  - left. split; [done|]. intros k r. by rewrite lookup_nil.
  - cbn [run_all]. unfold bind.
    assert (exec_run st r = snd (run_call r st)) as Hexec by reflexivity.
    destruct (run_call r st) as [[[]|e] st1] eqn:Hr; cbn [snd] in Hexec.
    + destruct (IH st1) as [[Hall Hok] | (k & r' & e & Hk & Hbefore & Hraise & Hall)].
      * left. cbn [exec_runs fold_left]. rewrite Hexec. split; [done|].
        intros [|k] r' Hk; cbn [take exec_runs fold_left].
        -- injection Hk as <-. by rewrite Hr.
        -- rewrite Hexec. by apply Hok.
      * right. exists (S k), r', e. split_and!; [done | | |].
        -- intros [|j] r'' Hj Hlook; cbn [take exec_runs fold_left].
           ++ injection Hlook as <-. by rewrite Hr.
           ++ rewrite Hexec. apply Hbefore; [lia | done].
        -- cbn [take exec_runs fold_left]. by rewrite Hexec.
        -- cbn [take exec_runs fold_left]. by rewrite Hexec.
    + right. exists 0%nat, r, e. cbn [take exec_runs fold_left].
      split_and!; [done | intros; lia | by rewrite Hr | by rewrite Hexec].
Qed.

Local Opaque migrate_table.

Lemma main_run_all env st :
  main env st
  = match run_all (script_runs env) st with
    | (Ok _, st') => (Ok tt, st', ["Migration batch completed successfully!"])
    | (Raise e, st') => (Raise e, st', [])
    end.
Proof.
  unfold main, script_runs, dimensions, facts.
  cbn [for_each run_all map app]. unfold run_call, bind, ret. cbn [fst snd].
  repeat (case_match; simplify_eq/=; try reflexivity; try congruence).
Qed.

Local Transparent migrate_table.


(** X21. The script changes the watermark of no table other than the two
    fact tables: from a watermark file that is absent or made of
    well-formed lines, [get_watermark] of any other table returns after the
    script, however it ended, what it returned before. *)
Theorem main_keeps_other_watermarks env st ls table :
  lines_state (watermark_file st) ls →
  forallb wf_line ls = true →
  table ∉ facts →
  fst (get_watermark table (main env st).1.2) = fst (get_watermark table st).
Proof.
  intros Hlog Hls Hnot.
  assert (Forall (λ r : run, r.2 = false ∨ (wf_table r.1.2 = true ∧ r.1.2 ≠ table))
            (script_runs env)) as Hruns.
  { unfold facts in Hnot. rewrite !not_elem_of_cons in Hnot.
    destruct Hnot as (H1 & H2 & _).
    unfold script_runs, dimensions, facts. simpl.
    repeat (apply List.Forall_cons; [first [by left | by right]|]).
    apply List.Forall_nil. }
  assert (∃ k, (main env st).1.2 = exec_runs st (take k (script_runs env)))
    as [k ->].
  { rewrite main_run_all.
    destruct (run_all_outcome (script_runs env) st)
      as [[Hall _] | (k & r & e & _ & _ & _ & Hall)]; rewrite Hall; simpl.
    - exists (length (script_runs env)). by rewrite firstn_all.
    - by exists (S k). }
  destruct (exec_runs_lines (take k (script_runs env)) table st ls Hlog Hls)
    as (ls' & Hlog' & Hls' & Hsame); [by apply Forall_take|].
  unfold get_watermark. simpl.
  rewrite (read_lines_state _ ls' table Hlog' Hls'), Hsame.
  symmetry. by apply read_lines_state.
Qed.

Lemma main_keeps_other_watermarks_witness :
  let w := demo_world (select_rows [(1, mkdatetime 2024 1 15 10 30 0 0)]) in
  let st := with_file (render_lines [("dim_date", "2024-03-01T00:00:00")]) in
  fst (get_watermark "dim_date" (main (λ _, w) st).1.2)
  = fst (get_watermark "dim_date" st).
Proof.
  intros w st.
  apply (main_keeps_other_watermarks (λ _, w) st
           [("dim_date", "2024-03-01T00:00:00")]).
  - left. reflexivity.
  - reflexivity.
  - apply (proj1 (bool_decide_eq_false _)). reflexivity.
Defined.

End Script.

(** * Writing a watermark *)

Section WatermarkWrites.
Import CloudMigrationPipeline.

(** X24. [update_watermark] never raises and touches nothing but the
    watermark file and the log.  Either the file could be opened and the
    value has an [isoformat]: then exactly one line is appended and the
    update is logged; or the error is logged and dropped: the file is as it
    was when it could not be opened, and only opened (created empty when it
    did not exist) when the value is not a timestamp. *)
Theorem update_watermark_never_raises writable table new_watermark st :
  let out := update_watermark writable table new_watermark st in
  fst out = Ok tt
  ∧ lake (snd out) = lake st
  ∧ ((∃ iso, writable = true
        ∧ scalar_isoformat new_watermark = Ok iso
        ∧ watermark_file (snd out)
          = Some (default "" (watermark_file st)
                  +:+ table +:+ "=" +:+ iso +:+ newline)
        ∧ trace (snd out)
          = (trace st ++ [LogWatermarkUpdated table new_watermark])%list)
     ∨ ((writable = false ∨ scalar_isoformat new_watermark = Raise AttributeError)
        ∧ watermark_file (snd out)
          = (if writable then Some (default "" (watermark_file st))
             else watermark_file st)
        ∧ trace (snd out) = (trace st ++ [LogWatermarkFailed])%list)).
Proof.
  unfold update_watermark, try_except, append_watermark, log.
  destruct writable; [|simpl; split_and!; [done..|right; auto]].
  destruct (scalar_isoformat new_watermark) as [iso|e] eqn:Hiso; simpl.
  - split_and!; [done..|]. left. exists iso. done.
  - split_and!; [done..|]. right. split_and!; [|done..]. right.
    destruct new_watermark; simpl in Hiso; congruence.
Qed.

End WatermarkWrites.
